(** * ppci: RISC-V frame and graph-colouring register allocator

    A shallow embedding of [ppci/arch/riscv/frame.py] and of
    [ppci/codegen/registerallocator.py], with the properties the
    specification states about them.

    Python objects are identified by a name (a number or a string) and
    their mutable attributes are kept in explicit state records.
    Python [int] is [Z]; a [dict] is a [gmap]; a [set] is a [gset]; a
    Python [list] is a [list] whose last element is the top of the stack
    ([append] adds at the end, [pop()] takes from the end). *)

From stdpp Require Import gmap strings list pretty sorting.
From Stdlib Require Import Strings.Byte.

(** ** Part I: definitions *)

(** *** [ppci/arch/riscv/frame.py] *)

Module Frame.

#[global] Instance byte_eq_dec : EqDecision byte := Byte.byte_eq_dec.

(** The literals accepted by [add_constant]:
    [assert type(value) in [str, int, bytes]]. *)
Inductive value :=
  | VInt (n : Z)
  | VStr (s : string)
  | VBytes (bs : list byte).

#[global] Instance value_eq_dec : EqDecision value.
Proof. solve_decision. Defined.

(** Registers named by the frame ([SP], [LR], [FP] of
    [ppci/arch/riscv/registers.py]) and the virtual registers handed out by
    [new_virtual_register]. *)
Inductive reg :=
  | SP
  | LR
  | FP
  | VReg (n : nat).

#[global] Instance reg_eq_dec : EqDecision reg.
Proof. solve_decision. Defined.

(** The instruction constructors the frame yields.  Only their constructor
    calls occur in [frame.py]; the argument order is the one of the calls. *)
Inductive ins :=
  | Alignment (n : Z)
  | Label (s : string)
  | dcd (v : value)
  | Db (b : byte)
  | Sw (base : reg) (r : reg) (off : Z)
  | Lw (base : reg) (r : reg) (off : Z)
  | Add (rd : reg) (rs : reg) (imm : Z)
  | Bl (link : reg) (target : string).

(** The call pseudo instruction handed to [make_call]. *)
Record vcall := { function_name : string }.

Section frame.
Context `{Countable lvar}.

(** The attributes of [RiscvFrame] that the modelled methods read or write. *)
Record frame := mkFrame {
  name : string;
  locVars : gmap lvar Z;
  stacksize : Z;
  constants : list (string * value);
  literal_number : Z;
}.

(** [RiscvFrame.__init__]: empty [locVars], empty literal pool, counter 0.
    The stack size is set by the base class, which is not among the
    sources, and is taken as an argument. *)
Definition new_frame (nm : string) (sz : Z) : frame :=
  {| name := nm; locVars := ∅; stacksize := sz;
     constants := []; literal_number := 0 |}.

(** [alloc_var]:
<<
    if lvar not in self.locVars:
        self.locVars[lvar] = self.stacksize
        self.stacksize = self.stacksize + size
    return self.locVars[lvar]
>> *)
Definition alloc_var (k : lvar) (size : Z) (f : frame) : Z * frame :=
  match locVars f !! k with
  | Some off => (off, f)
  | None =>
      (stacksize f,
       {| name := name f;
          locVars := <[k := stacksize f]> (locVars f);
          stacksize := stacksize f + size;
          constants := constants f;
          literal_number := literal_number f |})
  end.

(** The search loop of [add_constant]:
    [for lab_name, val in self.constants: if value == val: return lab_name]. *)
Fixpoint find_constant (v : value) (cs : list (string * value)) : option string :=
  match cs with
  | [] => None
  | (lab_name, val) :: cs' =>
      if decide (v = val) then Some lab_name else find_constant v cs'
  end.

(** ['{}_literal_{}'.format(self.name, self.literal_number)] *)
Definition literal_label (nm : string) (n : Z) : string :=
  nm +:+ "_literal_" +:+ pretty n.

(** [add_constant]. *)
Definition add_constant (v : value) (f : frame) : string * frame :=
  match find_constant v (constants f) with
  | Some lab_name => (lab_name, f)
  | None =>
      let lab_name := literal_label (name f) (literal_number f) in
      (lab_name,
       {| name := name f;
          locVars := locVars f;
          stacksize := stacksize f;
          constants := constants f ++ [(lab_name, v)];
          literal_number := literal_number f + 1 |})
  end.

(** The [while self.constants:] loop of [litpool]: pops the head of the pool
    and yields its label and data.  Returns what is yielded and what is left
    of the pool. *)
Fixpoint litpool_loop (cs : list (string * value)) : list ins * list (string * value) :=
  match cs with
  | [] => ([], [])
  | (label, v) :: cs' =>
      let data :=
        match v with
        | VInt _ | VStr _ => [dcd v]
        | VBytes bs => (Db <$> bs) ++ [Alignment 4]
        end in
      let '(out, rest) := litpool_loop cs' in
      (Label label :: data ++ out, rest)
  end.

(** [litpool], iterated to exhaustion: the instructions yielded and the
    frame afterwards. *)
Definition litpool (f : frame) : list ins * frame :=
  let align := match constants f with [] => [] | _ :: _ => [Alignment 4] end in
  let '(out, rest) := litpool_loop (constants f) in
  (align ++ out,
   {| name := name f;
      locVars := locVars f;
      stacksize := stacksize f;
      constants := rest;
      literal_number := literal_number f |}).

(** The two register loops of [make_call]; [i] is the running offset. *)
Fixpoint save_loop (live_regs : list reg) (i : Z) : list ins * Z :=
  match live_regs with
  | [] => ([], i)
  | register :: rest =>
      let '(out, i') := save_loop rest (i - 4) in
      (Sw SP register i :: out, i')
  end.

Fixpoint restore_loop (regs : list reg) (i : Z) : list ins * Z :=
  match regs with
  | [] => ([], i)
  | register :: rest =>
      let '(out, i') := restore_loop rest (i + 4) in
      (Lw SP register i :: out, i')
  end.

(** [make_call], iterated to exhaustion.  [live_regs_over] belongs to the
    base class [Frame] and is an argument here. *)
Definition make_call (live_regs_over : vcall → list reg) (c : vcall) : list ins :=
  let live_regs := live_regs_over c in
  let '(saves, i) := save_loop live_regs 0 in
  let '(loads, j) := restore_loop (reverse live_regs) 0 in
  saves ++ [Add SP SP i] ++ [Bl LR (function_name c)] ++ loads ++ [Add SP SP j].

(** A sequence of calls on one frame. *)
Inductive op :=
  | AllocVar (k : lvar) (size : Z)
  | AddConstant (v : value)
  | Litpool.

Definition run_op (o : op) (f : frame) : frame :=
  match o with
  | AllocVar k size => (alloc_var k size f).2
  | AddConstant v => (add_constant v f).2
  | Litpool => (litpool f).2
  end.

Definition run_ops (os : list op) (f : frame) : frame :=
  foldl (λ f o, run_op o f) f os.

(** The invariant of the literal pool: every label is [name_literal_k] for a
    [k] between [lo] and the counter, the [k] increase along the pool, and
    no value is pooled twice. *)
Definition pool_inv (lo : Z) (f : frame) : Prop :=
  (lo ≤ literal_number f)%Z ∧
  (∃ ks : list Z,
    (constants f).*1 = literal_label (name f) <$> ks ∧
    StronglySorted Z.lt ks ∧
    Forall (λ k, lo ≤ k < literal_number f)%Z ks) ∧
  NoDup (constants f).*2.

End frame.

Arguments frame lvar {_ _}.
Arguments op lvar : clear implicits.

(** Modelled from the spec: the instruction classes [Sw], [Lw], [Add] and
    [Bl] ([ppci/arch/riscv/instructions.py]) are not among the sources.
    [Sw(SP, r, i)] stores [r] at address [SP + i], [Lw(SP, r, i)] loads [r]
    from [SP + i], [Add(SP, SP, i)] adds [i] to the stack pointer, and the
    callee of [Bl] returns with the stack pointer it was entered with.
    [stack_trace sp code] lists the stack accesses of [code], as addresses
    relative to the stack pointer on entry, and the final stack pointer. *)
Inductive access :=
  | Store (r : reg) (addr : Z)
  | Load (r : reg) (addr : Z).

Fixpoint stack_trace (sp : Z) (code : list ins) : list access * Z :=
  match code with
  | [] => ([], sp)
  | Sw SP r off :: k =>
      let '(acc, sp') := stack_trace sp k in (Store r (sp + off) :: acc, sp')
  | Lw SP r off :: k =>
      let '(acc, sp') := stack_trace sp k in (Load r (sp + off) :: acc, sp')
  | Add SP SP imm :: k => stack_trace (sp + imm) k
  | _ :: k => stack_trace sp k
  end.

Definition stored_at (r : reg) (a : access) : option Z :=
  match a with
  | Store r' addr => if decide (r = r') then Some addr else None
  | Load _ _ => None
  end.

Definition loaded_from (r : reg) (a : access) : option Z :=
  match a with
  | Load r' addr => if decide (r = r') then Some addr else None
  | Store _ _ => None
  end.

(** The stores of the registers [regs] at the addresses [a], [a - 4], ...,
    and their loads from [a], [a + 4], ... *)
Fixpoint stores (regs : list reg) (a : Z) : list access :=
  match regs with
  | [] => []
  | r :: rest => Store r a :: stores rest (a - 4)
  end.

Fixpoint loads (regs : list reg) (a : Z) : list access :=
  match regs with
  | [] => []
  | r :: rest => Load r a :: loads rest (a + 4)
  end.

(** The addresses register [r] is stored to, and reloaded from. *)
Definition store_slots (r : reg) (code : list ins) : list Z :=
  omap (stored_at r) (stack_trace 0 code).1.

Definition load_slots (r : reg) (code : list ins) : list Z :=
  omap (loaded_from r) (stack_trace 0 code).1.

End Frame.

(** *** [ppci/codegen/registerallocator.py] *)

Module RegAlloc.

(** Registers, register classes, interference-graph nodes and instructions
    are Python objects compared by identity; each is named by a number. *)
Abbreviation register := nat (only parsing).
Abbreviation cls := nat (only parsing).
Abbreviation node := nat (only parsing).
Abbreviation instr := nat (only parsing).

(** The Python exceptions the allocator can raise. *)
Inductive exn :=
  | NotImplementedError
  | AssertionError
  | ValueError
  | KeyError
  | IndexError
  | RuntimeError
  | AttributeError.

#[global] Instance exn_eq_dec : EqDecision exn.
Proof. solve_decision. Defined.

(** A call returns, raises, or (for the fuelled main loop only) runs out of
    fuel. *)
Inductive result (A : Type) : Type :=
  | Ok (a : A)
  | Raise (e : exn)
  | OutOfFuel.
Arguments Ok {A} a.
Arguments Raise {A} e.
Arguments OutOfFuel {A}.

#[global] Instance result_ret : MRet result := λ A a, Ok a.
#[global] Instance result_bind : MBind result := λ A B k r,
  match r with Ok a => k a | Raise e => Raise e | OutOfFuel => OutOfFuel end.

Definition or_raise {A} (e : exn) (o : option A) : result A :=
  match o with Some a => Ok a | None => Raise e end.

(** [[f(x) for x in l]], stopping at the first exception. *)
Fixpoint map_r {A B} (f : A → result B) (l : list A) : result (list B) :=
  match l with
  | [] => Ok []
  | x :: l' => y ← f x; ys ← map_r f l'; Ok (y :: ys)
  end.

(** [all(f(x) for x in l)]: stops at the first false value. *)
Fixpoint all_r {A} (f : A → result bool) (l : list A) : result bool :=
  match l with
  | [] => Ok true
  | x :: l' => b ← f x; if b : bool then all_r f l' else Ok false
  end.

(** [l.pop()]: the last element and the list without it. *)
Fixpoint list_pop {A} (l : list A) : option (A * list A) :=
  match l with
  | [] => None
  | x :: l' =>
      match list_pop l' with
      | None => Some (x, [])
      | Some (y, r) => Some (y, x :: r)
      end
  end.

(** [l.remove(x)]: drops the first occurrence of [x]; [None] when there is
    none (Python raises [ValueError]). *)
Fixpoint list_remove `{EqDecision A} (x : A) (l : list A) : option (list A) :=
  match l with
  | [] => None
  | y :: l' => if decide (x = y) then Some l' else (y ::.) <$> list_remove x l'
  end.

(** [s.pop()] on a set: some element of the set and the set without it. *)
Definition set_pop `{Countable A} (s : gset A) : option (A * gset A) :=
  match elements s with
  | [] => None
  | x :: _ => Some (x, s ∖ {[x]})
  end.

(** **** The interference graph *)

(** Modelled from the spec: [ppci/codegen/interferencegraph.py] is not among
    the sources.  A node carries [temps], [color], [reg_class], [moves] and
    [is_colored] (section 3 of the specification). *)
Record ignode := mkNode {
  temps : gset register;
  color : option register;
  reg_class : cls;
  node_moves : gset instr;
  is_colored : bool;
}.

Definition upd_temps (f : gset register → gset register) (nd : ignode) : ignode :=
  mkNode (f (temps nd)) (color nd) (reg_class nd) (node_moves nd)
    (is_colored nd).

Definition upd_color (f : option register → option register) (nd : ignode) : ignode :=
  mkNode (temps nd) (f (color nd)) (reg_class nd) (node_moves nd)
    (is_colored nd).

Definition upd_reg_class (f : cls → cls) (nd : ignode) : ignode :=
  mkNode (temps nd) (color nd) (f (reg_class nd)) (node_moves nd)
    (is_colored nd).

Definition upd_node_moves (f : gset instr → gset instr) (nd : ignode) : ignode :=
  mkNode (temps nd) (color nd) (reg_class nd) (f (node_moves nd))
    (is_colored nd).

Definition empty_node : ignode := mkNode ∅ None 0 ∅ false.

(** Modelled from the spec: the graph keeps the set of its nodes, the
    attributes of every node object (also of the retired ones, which the
    allocator still reads), the edges as a symmetric adjacency map, the
    masked nodes, and the map from registers to nodes (section 4.2). *)
Record igraph := mkGraph {
  nodes : gset node;
  attr : gmap node ignode;
  adj_map : gmap node (gset node);
  masked_nodes : gset node;
  temp_map : gmap register node;
}.

Definition upd_nodes (f : gset node → gset node) (g : igraph) : igraph :=
  mkGraph (f (nodes g)) (attr g) (adj_map g) (masked_nodes g) (temp_map g).

Definition upd_attr (f : gmap node ignode → gmap node ignode) (g : igraph) : igraph :=
  mkGraph (nodes g) (f (attr g)) (adj_map g) (masked_nodes g) (temp_map g).

Definition upd_adj_map (f : gmap node (gset node) → gmap node (gset node)) (g : igraph) : igraph :=
  mkGraph (nodes g) (attr g) (f (adj_map g)) (masked_nodes g) (temp_map g).

Definition upd_masked_nodes (f : gset node → gset node) (g : igraph) : igraph :=
  mkGraph (nodes g) (attr g) (adj_map g) (f (masked_nodes g)) (temp_map g).

Definition upd_temp_map (f : gmap register node → gmap register node) (g : igraph) : igraph :=
  mkGraph (nodes g) (attr g) (adj_map g) (masked_nodes g) (f (temp_map g)).

Definition empty_graph : igraph := mkGraph ∅ ∅ ∅ ∅ ∅.

(** The attributes of node [n]. *)
Definition node_of (g : igraph) (n : node) : ignode :=
  default empty_node (attr g !! n).

Definition set_node (g : igraph) (n : node) (f : ignode → ignode) : igraph :=
  upd_attr (<[n := f (node_of g n)]>) g.

(** Modelled from the spec: [get_node(reg)] is the node containing [reg]. *)
Definition get_node (g : igraph) (reg : register) : result node :=
  or_raise KeyError (temp_map g !! reg).

Definition neighbours (g : igraph) (n : node) : gset node :=
  default ∅ (adj_map g !! n).

(** Modelled from the spec: [n.adjecent] is the neighbour set, masked nodes
    excluded. *)
Definition adjecent (g : igraph) (n : node) : gset node :=
  neighbours g n ∖ masked_nodes g.

(** Modelled from the spec: [has_edge] is a symmetric edge query to which
    masked nodes are invisible. *)
Definition has_edge (g : igraph) (a b : node) : bool :=
  bool_decide ((a ∉ masked_nodes g) ∧ (b ∉ masked_nodes g) ∧
               (b ∈ neighbours g a ∨ a ∈ neighbours g b)).

(** Modelled from the spec: masking removes a node from the adjacency views
    and unmasking restores it; the storage persists. *)
Definition mask_node (g : igraph) (n : node) : igraph :=
  upd_masked_nodes (λ s, s ∪ {[n]}) g.

Definition unmask_node (g : igraph) (n : node) : igraph :=
  upd_masked_nodes (λ s, s ∖ {[n]}) g.

(** Modelled from the spec: [combine(u, v)] merges [v] into [u]:
    [u.temps ∪= v.temps], [u.moves ∪= v.moves], the edges incident to [v]
    become incident to [u], [v] is retired and its registers map to [u]. *)
Definition ig_combine (g : igraph) (u v : node) : igraph :=
  let vn := node_of g v in
  let nv := neighbours g v in
  let g1 := set_node g u (λ un,
              upd_node_moves (λ s, s ∪ node_moves vn)
                (upd_temps (λ s, s ∪ temps vn) un)) in
  let reroute (a : node) (m : gmap node (gset node)) :=
    <[a := ({[u]} ∪ default ∅ (m !! a)) ∖ {[v]}]> m in
  let adj1 := set_fold reroute (adj_map g1) (nv ∖ {[u]}) in
  let adj2 := <[u := (neighbours g u ∪ nv) ∖ {[u; v]}]> adj1 in
  mkGraph (nodes g1 ∖ {[v]}) (attr g1) (delete v adj2) (masked_nodes g1)
    (set_fold (λ t m, <[t := u]> m) (temp_map g1) (temps vn)).

(** **** The allocator state *)

(** The attributes of the allocator and of its frame that change during
    [alloc_frame]: [frame.instructions], the [color] attribute of the
    registers ([reg_color], absent for an uncoloured register), [frame.ig],
    and the sets and lists of [init_data], [build] and [makeWorkList]. *)
Record state := mkState {
  instructions : list instr;
  reg_color : gmap register Z;
  ig : igraph;
  precolored : gset node;
  initial : gset node;
  moves : list instr;
  coalescedMoves : gset instr;
  constrainedMoves : gset instr;
  frozenMoves : gset instr;
  activeMoves : gset instr;
  worklistMoves : gset instr;
  select_stack : list node;
  spillWorklist : list node;
  freeze_worklist : list node;
  simplifyWorklist : list node;
}.

Definition set_instructions (f : list instr → list instr) (st : state) : state :=
  mkState (f (instructions st)) (reg_color st) (ig st) (precolored st)
    (initial st) (moves st) (coalescedMoves st) (constrainedMoves st)
    (frozenMoves st) (activeMoves st) (worklistMoves st) (select_stack st)
    (spillWorklist st) (freeze_worklist st) (simplifyWorklist st).

Definition set_reg_color (f : gmap register Z → gmap register Z) (st : state) : state :=
  mkState (instructions st) (f (reg_color st)) (ig st) (precolored st)
    (initial st) (moves st) (coalescedMoves st) (constrainedMoves st)
    (frozenMoves st) (activeMoves st) (worklistMoves st) (select_stack st)
    (spillWorklist st) (freeze_worklist st) (simplifyWorklist st).

Definition set_ig (f : igraph → igraph) (st : state) : state :=
  mkState (instructions st) (reg_color st) (f (ig st)) (precolored st)
    (initial st) (moves st) (coalescedMoves st) (constrainedMoves st)
    (frozenMoves st) (activeMoves st) (worklistMoves st) (select_stack st)
    (spillWorklist st) (freeze_worklist st) (simplifyWorklist st).

Definition set_precolored (f : gset node → gset node) (st : state) : state :=
  mkState (instructions st) (reg_color st) (ig st) (f (precolored st))
    (initial st) (moves st) (coalescedMoves st) (constrainedMoves st)
    (frozenMoves st) (activeMoves st) (worklistMoves st) (select_stack st)
    (spillWorklist st) (freeze_worklist st) (simplifyWorklist st).

Definition set_initial (f : gset node → gset node) (st : state) : state :=
  mkState (instructions st) (reg_color st) (ig st) (precolored st) (f
    (initial st)) (moves st) (coalescedMoves st) (constrainedMoves st)
    (frozenMoves st) (activeMoves st) (worklistMoves st) (select_stack st)
    (spillWorklist st) (freeze_worklist st) (simplifyWorklist st).

Definition set_moves (f : list instr → list instr) (st : state) : state :=
  mkState (instructions st) (reg_color st) (ig st) (precolored st) (initial
    st) (f (moves st)) (coalescedMoves st) (constrainedMoves st)
    (frozenMoves st) (activeMoves st) (worklistMoves st) (select_stack st)
    (spillWorklist st) (freeze_worklist st) (simplifyWorklist st).

Definition set_coalescedMoves (f : gset instr → gset instr) (st : state) : state :=
  mkState (instructions st) (reg_color st) (ig st) (precolored st) (initial
    st) (moves st) (f (coalescedMoves st)) (constrainedMoves st)
    (frozenMoves st) (activeMoves st) (worklistMoves st) (select_stack st)
    (spillWorklist st) (freeze_worklist st) (simplifyWorklist st).

Definition set_constrainedMoves (f : gset instr → gset instr) (st : state) : state :=
  mkState (instructions st) (reg_color st) (ig st) (precolored st) (initial
    st) (moves st) (coalescedMoves st) (f (constrainedMoves st))
    (frozenMoves st) (activeMoves st) (worklistMoves st) (select_stack st)
    (spillWorklist st) (freeze_worklist st) (simplifyWorklist st).

Definition set_frozenMoves (f : gset instr → gset instr) (st : state) : state :=
  mkState (instructions st) (reg_color st) (ig st) (precolored st) (initial
    st) (moves st) (coalescedMoves st) (constrainedMoves st) (f (frozenMoves
    st)) (activeMoves st) (worklistMoves st) (select_stack st)
    (spillWorklist st) (freeze_worklist st) (simplifyWorklist st).

Definition set_activeMoves (f : gset instr → gset instr) (st : state) : state :=
  mkState (instructions st) (reg_color st) (ig st) (precolored st) (initial
    st) (moves st) (coalescedMoves st) (constrainedMoves st) (frozenMoves
    st) (f (activeMoves st)) (worklistMoves st) (select_stack st)
    (spillWorklist st) (freeze_worklist st) (simplifyWorklist st).

Definition set_worklistMoves (f : gset instr → gset instr) (st : state) : state :=
  mkState (instructions st) (reg_color st) (ig st) (precolored st) (initial
    st) (moves st) (coalescedMoves st) (constrainedMoves st) (frozenMoves
    st) (activeMoves st) (f (worklistMoves st)) (select_stack st)
    (spillWorklist st) (freeze_worklist st) (simplifyWorklist st).

Definition set_select_stack (f : list node → list node) (st : state) : state :=
  mkState (instructions st) (reg_color st) (ig st) (precolored st) (initial
    st) (moves st) (coalescedMoves st) (constrainedMoves st) (frozenMoves
    st) (activeMoves st) (worklistMoves st) (f (select_stack st))
    (spillWorklist st) (freeze_worklist st) (simplifyWorklist st).

Definition set_spillWorklist (f : list node → list node) (st : state) : state :=
  mkState (instructions st) (reg_color st) (ig st) (precolored st) (initial
    st) (moves st) (coalescedMoves st) (constrainedMoves st) (frozenMoves
    st) (activeMoves st) (worklistMoves st) (select_stack st) (f
    (spillWorklist st)) (freeze_worklist st) (simplifyWorklist st).

Definition set_freeze_worklist (f : list node → list node) (st : state) : state :=
  mkState (instructions st) (reg_color st) (ig st) (precolored st) (initial
    st) (moves st) (coalescedMoves st) (constrainedMoves st) (frozenMoves
    st) (activeMoves st) (worklistMoves st) (select_stack st) (spillWorklist
    st) (f (freeze_worklist st)) (simplifyWorklist st).

Definition set_simplifyWorklist (f : list node → list node) (st : state) : state :=
  mkState (instructions st) (reg_color st) (ig st) (precolored st) (initial
    st) (moves st) (coalescedMoves st) (constrainedMoves st) (frozenMoves
    st) (activeMoves st) (worklistMoves st) (select_stack st) (spillWorklist
    st) (freeze_worklist st) (f (simplifyWorklist st)).

(** The state and exception monad of the allocator's methods. *)
Definition M (A : Type) : Type := state → result (A * state).

#[global] Instance M_ret : MRet M := λ A a st, Ok (a, st).
#[global] Instance M_bind : MBind M := λ A B k m st,
  match m st with
  | Ok (a, st') => k a st'
  | Raise e => Raise e
  | OutOfFuel => OutOfFuel
  end.

Definition get : M state := λ st, Ok (st, st).
Definition modify (f : state → state) : M unit := λ st, Ok (tt, f st).
Definition raise {A} (e : exn) : M A := λ _, Raise e.
Definition lift {A} (r : result A) : M A := λ st,
  match r with Ok a => Ok (a, st) | Raise e => Raise e | OutOfFuel => OutOfFuel end.

(** [for x in l: body(x)] *)
Fixpoint for_ {A} (l : list A) (body : A → M unit) : M unit :=
  match l with
  | [] => mret tt
  | x :: l' => body x ;; for_ l' body
  end.

(** [m] run [n] times. *)
Fixpoint repeat_ (n : nat) (m : M unit) : M unit :=
  match n with
  | 0 => mret tt
  | S n' => m ;; repeat_ n' m
  end.

(** **** The architecture and the instructions *)

(** What [__init__] reads of the architecture: [register_classes], of whose
    entries [(_, _, kls, regs)] only [kls] and [regs] are used; the
    [aliases] attribute of the registers; and Python's [issubclass] on the
    register classes. *)
Record architecture := mkArch {
  register_classes : list (cls * list register);
  aliases : register → list register;
  issubclass : cls → cls → bool;
}.

(** The attributes of the instructions that the allocator reads. *)
Record program := mkProgram {
  ismove : instr → bool;
  used_registers : instr → list register;
  defined_registers : instr → list register;
}.

(** The tables built by [__init__].  ([reg_colors] is built but never
    read, and is left out.) *)
Record tables := mkTables {
  K : gmap cls nat;
  cls_regs : gmap cls (gset register);
  alias : gmap register (gset register);
}.

(** [alias[r]] on the [defaultdict(set)]. *)
Definition alias_get (a : gmap register (gset register)) (r : register)
    : gset register :=
  default ∅ (a !! r).

(** [alias[r].add(r2)] *)
Definition alias_add (a : gmap register (gset register)) (r r2 : register)
    : gmap register (gset register) :=
  <[r := alias_get a r ∪ {[r2]}]> a.

Section allocator.
Variable arch : architecture.
Variable prog : program.

(** The constructors of [FlowGraph] and [InterferenceGraph] and
    [calculate_interference] are not among the sources: the graph they
    build from the instruction list is a parameter. *)
Variable interference : list instr → igraph.

(** The body of the loop over [self.arch.register_classes] in [__init__]. *)
Definition init_class (t : tables) (val : cls * list register) : tables :=
  let '(kls, regs) := val in
  mkTables
    (<[kls := length regs]> (K t))
    (<[kls := list_to_set regs]> (cls_regs t))
    (foldl (λ a r,
        foldl (λ a r2, alias_add (alias_add a r r2) r2 r)
              (alias_add a r r) (aliases arch r))
       (alias t) regs).

(** [__init__] *)
Definition self : tables :=
  foldl init_class (mkTables ∅ ∅ ∅) (register_classes arch).

(** [self.alias[m.color]]; the colour of an uncoloured node is [None], for
    which the [defaultdict] gives the empty set. *)
Definition alias_of (c : option register) : gset register :=
  match c with
  | Some r => alias_get (alias self) r
  | None => ∅
  end.

(** [q]; the [lru_cache] does not change its value. *)
Definition q (B C : cls) : result nat :=
  B_regs ← or_raise KeyError (cls_regs self !! B);
  C_regs ← or_raise KeyError (cls_regs self !! C);
  match elements C_regs with
  | [] => Raise ValueError
  | rs => Ok (max_list ((λ r, size (alias_get (alias self) r ∩ B_regs)) <$> rs))
  end.

(** [is_colorable] *)
Definition is_colorable (g : igraph) (n : node) : result bool :=
  if is_colored (node_of g n) then Ok true
  else
    let B := reg_class (node_of g n) in
    blocked ← map_r (λ j, q B (reg_class (node_of g j))) (elements (adjecent g n));
    k ← or_raise KeyError (K self !! B);
    Ok (bool_decide (sum_list blocked < k)).

(** [NodeMoves] and [is_move_related] *)
Definition NodeMoves (st : state) (n : node) : gset instr :=
  node_moves (node_of (ig st) n) ∩ (activeMoves st ∪ worklistMoves st).

Definition is_move_related (st : state) (n : node) : bool :=
  bool_decide (NodeMoves st n ≠ ∅).

(** [Node(m.used_registers[0])] and [Node(m.defined_registers[0])] *)
Definition Node (vreg : register) : M node :=
  st ← get; lift (get_node (ig st) vreg).

Definition used0 (m : instr) : M register :=
  lift (or_raise IndexError (head (used_registers prog m))).

Definition defined0 (m : instr) : M register :=
  lift (or_raise IndexError (head (defined_registers prog m))).

(** The list and set methods, on the attribute they are called on. *)
Definition pop_simplifyWorklist : M node := λ st,
  match list_pop (simplifyWorklist st) with
  | Some (n, l) => Ok (n, set_simplifyWorklist (λ _, l) st)
  | None => Raise IndexError
  end.

Definition pop_freeze_worklist : M node := λ st,
  match list_pop (freeze_worklist st) with
  | Some (n, l) => Ok (n, set_freeze_worklist (λ _, l) st)
  | None => Raise IndexError
  end.

Definition pop_select_stack : M node := λ st,
  match list_pop (select_stack st) with
  | Some (n, l) => Ok (n, set_select_stack (λ _, l) st)
  | None => Raise IndexError
  end.

Definition pop_worklistMoves : M instr := λ st,
  match set_pop (worklistMoves st) with
  | Some (m, s) => Ok (m, set_worklistMoves (λ _, s) st)
  | None => Raise KeyError
  end.

Definition remove_spillWorklist (n : node) : M unit := λ st,
  match list_remove n (spillWorklist st) with
  | Some l => Ok (tt, set_spillWorklist (λ _, l) st)
  | None => Raise ValueError
  end.

Definition remove_freeze_worklist (n : node) : M unit := λ st,
  match list_remove n (freeze_worklist st) with
  | Some l => Ok (tt, set_freeze_worklist (λ _, l) st)
  | None => Raise ValueError
  end.

Definition remove_instruction (i : instr) : M unit := λ st,
  match list_remove i (instructions st) with
  | Some l => Ok (tt, set_instructions (λ _, l) st)
  | None => Raise ValueError
  end.

Definition remove_activeMoves (m : instr) : M unit := λ st,
  if decide (m ∈ activeMoves st)
  then Ok (tt, set_activeMoves (λ s, s ∖ {[m]}) st)
  else Raise KeyError.

Definition remove_worklistMoves (m : instr) : M unit := λ st,
  if decide (m ∈ worklistMoves st)
  then Ok (tt, set_worklistMoves (λ s, s ∖ {[m]}) st)
  else Raise KeyError.

Definition append_spillWorklist (n : node) : M unit :=
  modify (set_spillWorklist (λ l, l ++ [n])).
Definition append_freeze_worklist (n : node) : M unit :=
  modify (set_freeze_worklist (λ l, l ++ [n])).
Definition append_simplifyWorklist (n : node) : M unit :=
  modify (set_simplifyWorklist (λ l, l ++ [n])).
Definition append_select_stack (n : node) : M unit :=
  modify (set_select_stack (λ l, l ++ [n])).

Definition add_coalescedMoves (m : instr) : M unit :=
  modify (set_coalescedMoves (λ s, s ∪ {[m]})).
Definition add_constrainedMoves (m : instr) : M unit :=
  modify (set_constrainedMoves (λ s, s ∪ {[m]})).
Definition add_frozenMoves (m : instr) : M unit :=
  modify (set_frozenMoves (λ s, s ∪ {[m]})).
Definition add_activeMoves (m : instr) : M unit :=
  modify (set_activeMoves (λ s, s ∪ {[m]})).
Definition add_worklistMoves (m : instr) : M unit :=
  modify (set_worklistMoves (λ s, s ∪ {[m]})).

(** [EnableMoves] *)
Definition EnableMoves (ns : gset node) : M unit :=
  for_ (elements ns) (λ n,
    st ← get;
    for_ (elements (NodeMoves st n)) (λ m,
      st ← get;
      if decide (m ∈ activeMoves st)
      then remove_activeMoves m ;; add_worklistMoves m
      else mret tt)).

(** [decrement_degree] *)
Definition decrement_degree (m : node) : M unit :=
  st ← get;
  c ← (if bool_decide (m ∈ spillWorklist st)
       then lift (is_colorable (ig st) m) else mret false);
  if c : bool then
    EnableMoves ({[m]} ∪ adjecent (ig st) m) ;;
    remove_spillWorklist m ;;
    st ← get;
    if is_move_related st m
    then append_freeze_worklist m
    else append_simplifyWorklist m
  else mret tt.

(** [simplify] *)
Definition simplify : M unit :=
  n ← pop_simplifyWorklist;
  append_select_stack n ;;
  modify (set_ig (λ g, mask_node g n)) ;;
  st ← get;
  for_ (elements (adjecent (ig st) n)) decrement_degree.

(** [common_reg_class]; the [lru_cache] does not change its value. *)
Definition common_reg_class (u v : cls) : result cls :=
  if issubclass arch u v then Ok u
  else if issubclass arch v u then Ok v
  else Raise RuntimeError.

(** [fits_class]: [return issubclass(v, u)] *)
Definition fits_class (u v : cls) : bool := issubclass arch v u.

(** [ok] *)
Definition ok (g : igraph) (t r : node) : result bool :=
  if is_colored (node_of g t) then Ok true
  else
    c ← is_colorable g t;
    if c : bool then Ok true else Ok (has_edge g t r).

(** [conservative] *)
Definition conservative (g : igraph) (u v : node) : result bool :=
  let ns := adjecent g u ∪ adjecent g v in
  cs ← map_r (is_colorable g) (elements ns);
  let k := length (filter (λ c, c = false) cs) in
  common ← common_reg_class (reg_class (node_of g u)) (reg_class (node_of g v));
  kk ← or_raise KeyError (K self !! common);
  Ok (bool_decide (k < kk)).

(** [add_worklist] *)
Definition add_worklist (u : node) : M unit :=
  st ← get;
  c ← (if bool_decide (u ∉ precolored st) && negb (is_move_related st u)
       then lift (is_colorable (ig st) u) else mret false);
  if c : bool then remove_freeze_worklist u ;; append_simplifyWorklist u
  else mret tt.

(** [combine] *)
Definition combine (u v : node) : M unit :=
  st ← get;
  (if bool_decide (v ∈ freeze_worklist st)
   then remove_freeze_worklist v else remove_spillWorklist v) ;;
  modify (set_ig (λ g, ig_combine g u v)) ;;
  st ← get;
  common ← lift (common_reg_class (reg_class (node_of (ig st) u))
                                  (reg_class (node_of (ig st) v)));
  modify (set_ig (λ g, set_node g u (upd_reg_class (λ _, common)))) ;;
  st ← get;
  for_ (elements (adjecent (ig st) u)) decrement_degree ;;
  st ← get;
  c ← lift (is_colorable (ig st) u);
  if negb c && bool_decide (u ∈ freeze_worklist st)
  then remove_freeze_worklist u ;; append_spillWorklist u
  else mret tt.

(** The third test of [coalesc]:
<<
    (u.is_colored and self.fits_class(v.reg_class, u.reg_class) and
        all(self.ok(t, u) for t in v.adjecent)) or
    ((not u.is_colored) and self.conservative(u, v))
>> *)
Definition coalesc_test (g : igraph) (u v : node) : result bool :=
  george ←
    (if is_colored (node_of g u)
     then if fits_class (reg_class (node_of g v)) (reg_class (node_of g u))
          then all_r (λ t, ok g t u) (elements (adjecent g v))
          else Ok false
     else Ok false);
  if george : bool then Ok true
  else if negb (is_colored (node_of g u)) then conservative g u v
  else Ok false.

(** [coalesc] *)
Definition coalesc : M unit :=
  m ← pop_worklistMoves;
  x ← (r ← defined0 m; Node r);
  y ← (r ← used0 m; Node r);
  st ← get;
  let '(u, v) := if bool_decide (y ∈ precolored st) then (y, x) else (x, y) in
  if decide (u = v) then
    add_coalescedMoves m ;; add_worklist u
  else if bool_decide (v ∈ precolored st) || has_edge (ig st) u v then
    add_constrainedMoves m ;; add_worklist u ;; add_worklist v
  else
    c ← lift (coalesc_test (ig st) u v);
    if c : bool then add_coalescedMoves m ;; combine u v ;; add_worklist u
    else add_activeMoves m.

(** [freeze] *)
Definition freeze : M unit :=
  u ← pop_freeze_worklist;
  append_simplifyWorklist u ;;
  st ← get;
  for_ (elements (NodeMoves st u)) (λ m,
    st ← get;
    (if decide (m ∈ activeMoves st)
     then remove_activeMoves m else remove_worklistMoves m) ;;
    add_frozenMoves m ;;
    src ← (r ← used0 m; Node r);
    dst ← (r ← defined0 m; Node r);
    let v := if decide (u = dst) then src else dst in
    st ← get;
    c ← (if bool_decide (v ∉ precolored st) && negb (is_move_related st v)
         then lift (is_colorable (ig st) v) else mret false);
    if c : bool then
      (if bool_decide (v ∈ freeze_worklist st)
       then mret tt else raise AssertionError) ;;
      remove_freeze_worklist v ;;
      append_simplifyWorklist v
    else mret tt).

(** The two loops of [assign_colors] that fill [takenregs]:
<<
    for m in node.adjecent:
        for r in self.alias[m.color]:
            takenregs.add(r)
>> *)
Definition takenregs (g : igraph) (n : node) : gset register :=
  ⋃ ((λ m, alias_of (color (node_of g m))) <$> elements (adjecent g n)).

(** One round of the [while self.select_stack:] loop of [assign_colors]. *)
Definition assign_color : M unit :=
  n ← pop_select_stack;
  modify (set_ig (λ g, unmask_node g n)) ;;
  st ← get;
  let g := ig st in
  regs ← lift (or_raise KeyError (cls_regs self !! reg_class (node_of g n)));
  let ok_regs := regs ∖ takenregs g n in
  match elements ok_regs with
  | [] => raise AssertionError
  | reg :: _ => modify (set_ig (λ g, set_node g n (upd_color (λ _, Some reg))))
  end.

(** [assign_colors]: every round pops one node and pushes none, so the loop
    makes as many rounds as the stack is high. *)
Definition assign_colors : M unit :=
  st ← get; repeat_ (length (select_stack st)) assign_color.

(** [remove_redundant_moves] *)
Definition remove_redundant_moves : M unit :=
  st ← get; for_ (elements (coalescedMoves st)) remove_instruction.

(** Modelled from the spec: the class [Register] ([ppci/arch/isa.py]) is
    not among the sources.  A register is coloured when it has a colour;
    [set_color] overwrites the colour. *)
Definition set_color (reg : register) (c : option Z) (m : gmap register Z)
    : gmap register Z :=
  match c with
  | Some z => <[reg := z]> m
  | None => delete reg m
  end.

(** [apply_colors] *)
Definition apply_colors : M unit :=
  st ← get;
  for_ (elements (nodes (ig st))) (λ n,
    st ← get;
    for_ (elements (temps (node_of (ig st) n))) (λ reg,
      st ← get;
      match color (node_of (ig st) n) with
      | None => raise AttributeError
      | Some c =>
          match reg_color st !! reg with
          | Some z =>
              if decide (Some z = reg_color st !! c)
              then mret tt else raise AssertionError
          | None => modify (set_reg_color (set_color reg (reg_color st !! c)))
          end
      end)).

(** [init_data] *)
Definition init_data : M unit :=
  modify (set_coalescedMoves (λ _, ∅)) ;;
  modify (set_constrainedMoves (λ _, ∅)) ;;
  modify (set_frozenMoves (λ _, ∅)) ;;
  modify (set_activeMoves (λ _, ∅)) ;;
  modify (set_worklistMoves (λ _, ∅)).

(** [build] *)
Definition build : M unit :=
  modify (λ st, set_ig (λ _, interference (instructions st)) st) ;;
  modify (λ st, set_precolored (λ _,
    filter (λ n, is_colored (node_of (ig st) n) = true) (nodes (ig st))) st) ;;
  modify (λ st, set_initial (λ _, nodes (ig st) ∖ precolored st) st) ;;
  modify (λ st, set_moves (λ _,
    filter (λ i, ismove prog i = true) (instructions st)) st) ;;
  st ← get;
  for_ (moves st) (λ mv,
    src ← (r ← used0 mv; Node r);
    dst ← (r ← defined0 mv; Node r);
    modify (set_ig (λ g, set_node g src (upd_node_moves (λ s, s ∪ {[mv]})))) ;;
    modify (set_ig (λ g, set_node g dst (upd_node_moves (λ s, s ∪ {[mv]}))))).

(** [makeWorkList]; the [while self.initial:] loop pops every node of
    [initial] once. *)
Definition makeWorkList : M unit :=
  modify (set_select_stack (λ _, [])) ;;
  st ← get;
  for_ (moves st) add_worklistMoves ;;
  modify (set_spillWorklist (λ _, [])) ;;
  modify (set_freeze_worklist (λ _, [])) ;;
  modify (set_simplifyWorklist (λ _, [])) ;;
  st ← get;
  for_ (elements (initial st)) (λ n,
    modify (set_initial (λ s, s ∖ {[n]})) ;;
    st ← get;
    c ← lift (is_colorable (ig st) n);
    if negb c then append_spillWorklist n
    else if is_move_related st n then append_freeze_worklist n
    else append_simplifyWorklist n).

(** The steps of the main loop of [alloc_frame]. *)
Inductive step :=
  | Simplify
  | Coalesce
  | Freeze
  | Spill
  | Break.

#[global] Instance step_eq_dec : EqDecision step.
Proof. solve_decision. Defined.

(** The [if]/[elif] chain of the loop body. *)
Definition select_step (st : state) : step :=
  if bool_decide (simplifyWorklist st ≠ []) then Simplify
  else if bool_decide (worklistMoves st ≠ ∅) then Coalesce
  else if bool_decide (freeze_worklist st ≠ []) then Freeze
  else if bool_decide (spillWorklist st ≠ []) then Spill
  else Break.

(** One round of [while True:]; [true] when the loop goes on. *)
Definition loop_body : M bool :=
  st ← get;
  match select_step st with
  | Simplify => simplify ;; mret true
  | Coalesce => coalesc ;; mret true
  | Freeze => freeze ;; mret true
  | Spill => raise NotImplementedError
  | Break => mret false
  end.

Fixpoint main_loop (fuel : nat) : M unit :=
  match fuel with
  | 0 => λ _, OutOfFuel
  | S fuel' =>
      again ← loop_body;
      if again : bool then main_loop fuel' else mret tt
  end.

(** [alloc_frame] *)
Definition alloc_frame (fuel : nat) : M unit :=
  init_data ;;
  build ;;
  makeWorkList ;;
  main_loop fuel ;;
  assign_colors ;;
  remove_redundant_moves ;;
  apply_colors.

(** The allocator state on entry of [alloc_frame] for a frame with the
    given instructions and register colours. *)
Definition enter (ins : list instr) (colors : gmap register Z) : state :=
  mkState ins colors empty_graph ∅ ∅ [] ∅ ∅ ∅ ∅ ∅ [] [] [] [].

End allocator.

(** **** Specification predicates *)

(** The exceptions other than the one of the unimplemented spill. *)
Definition no_spill_error (e : exn) : Prop := e ≠ NotImplementedError.

(** [rsafe r]: [r] does not raise the spill error. *)
Definition rsafe {A} (r : result A) : Prop :=
  match r with Raise e => no_spill_error e | _ => True end.

(** [wp m Q st]: run from [st], [m] does not raise the spill error, and
    when it returns [a] in state [st'], [Q a st'] holds. *)
Definition wp {A} (m : M A) (Q : A → state → Prop) (st : state) : Prop :=
  match m st with
  | Ok (a, st') => Q a st'
  | Raise e => no_spill_error e
  | OutOfFuel => True
  end.

(** The five move sets of the allocator. *)
Definition move_sets (st : state) : list (gset instr) :=
  [coalescedMoves st; constrainedMoves st; frozenMoves st;
   activeMoves st; worklistMoves st].

(** The sets of [ss] are pairwise disjoint. *)
Fixpoint pairwise_disjoint (ss : list (gset instr)) : Prop :=
  match ss with
  | [] => True
  | s :: ss' => Forall (λ s', s ## s') ss' ∧ pairwise_disjoint ss'
  end.

(** The number of sets of [ss] that [x] lies in. *)
Definition occ (x : instr) (s : gset instr) : nat :=
  if decide (x ∈ s) then 1 else 0.

Definition occurrences (x : instr) (ss : list (gset instr)) : nat :=
  sum_list (occ x <$> ss).

(** Every move of [all] lies in exactly one of the five move sets and [h],
    and no other instruction lies in any of them; [h] holds the move that a
    running step has taken out of one set and not yet put into another. *)
Definition moves_inv (all h : gset instr) (st : state) : Prop :=
  ∀ x, occurrences x (h :: move_sets st) = occurrences x [all].

(** A move lies in exactly one of the five sets. *)
Definition in_exactly_one (m : instr) (st : state) : Prop :=
  occurrences m (move_sets st) = 1.

(** The coloured registers of [a] have the same colour in [b], and the
    graph, the instructions and the coalesced moves are the same. *)
Definition colors_kept (a b : state) : Prop :=
  ig b = ig a ∧ instructions b = instructions a ∧
  coalescedMoves b = coalescedMoves a ∧
  ∀ r z, reg_color a !! r = Some z → reg_color b !! r = Some z.

(** Every node of the graph has a colour, and that colour is a register
    with a colour of its own (a physical register). *)
Definition nodes_colored (st : state) : Prop :=
  ∀ n, n ∈ nodes (ig st) →
    ∃ c z, color (node_of (ig st) n) = Some c ∧ reg_color st !! c = Some z.

(** The pq-test in the words of the specification.  [class_regs arch C] are
    the registers of class [C]: those of its last entry in
    [register_classes]. *)
Fixpoint class_lookup (l : list (cls * list register)) (C : cls)
    : option (list register) :=
  match l with
  | [] => None
  | (kls, regs) :: l' =>
      match class_lookup l' C with
      | Some r => Some r
      | None => if decide (kls = C) then Some regs else None
      end
  end.

Definition class_regs (arch : architecture) (C : cls) : list register :=
  default [] (class_lookup (register_classes arch) C).

(** The registers of all classes. *)
Definition all_registers (arch : architecture) : list register :=
  mjoin (snd <$> register_classes arch).

(** Two registers alias when they are the same or one lists the other among
    its aliases. *)
Definition aliased (arch : architecture) (r r2 : register) : Prop :=
  r2 = r ∨ r2 ∈ aliases arch r ∨ r ∈ aliases arch r2.

#[global] Instance aliased_dec arch r r2 : Decision (aliased arch r r2).
Proof. unfold aliased. apply _. Defined.

(** [q_spec arch B C]: the maximum over the registers [r] of class [C] of
    the number of registers of class [B] that alias [r]. *)
Definition q_spec (arch : architecture) (B C : cls) : nat :=
  max_list
    ((λ r, size (filter (aliased arch r)
                   (list_to_set (class_regs arch B) : gset register)))
     <$> class_regs arch C).

(** The sum of the pq-test for node [n]. *)
Definition pq_sum (arch : architecture) (g : igraph) (n : node) : nat :=
  sum_list ((λ m, q_spec arch (reg_class (node_of g n))
                    (reg_class (node_of g m)))
            <$> elements (adjecent g n)).

(** [coalesc], run in [st], takes the move [m] from the worklist, and [u]
    and [v] are its oriented end points. *)
Definition coalesc_takes (prog : program) (st : state) (m : instr)
    (u v : node) : Prop :=
  ∃ W rd ru x y,
    set_pop (worklistMoves st) = Some (m, W) ∧
    head (defined_registers prog m) = Some rd ∧
    head (used_registers prog m) = Some ru ∧
    get_node (ig st) rd = Ok x ∧
    get_node (ig st) ru = Ok y ∧
    (u, v) = if bool_decide (y ∈ precolored st) then (y, x) else (x, y).

Section phases.
Variable arch : architecture.
Variable prog : program.
Variable interference : list instr → igraph.

(** The part of [alloc_frame] before the main loop. *)
Definition prepare : M unit :=
  init_data ;; build prog interference ;; makeWorkList arch.

(** The first [k] rounds of the main loop (fewer when the loop ends before). *)
Definition rounds (k : nat) : M unit :=
  repeat_ k (loop_body arch prog ;; mret tt).

(** The part of [alloc_frame] after the main loop. *)
Definition finish : M unit :=
  assign_colors arch ;; remove_redundant_moves ;; apply_colors.

(** The invariant of the main loop: the move sets partition the moves and
    the instruction list is the one on entry. *)
Definition loop_inv (ins : list instr) (h : gset instr) (st : state) : Prop :=
  moves_inv (list_to_set (filter (λ i, ismove prog i = true) ins)) h st ∧
  instructions st = ins.

End phases.

End RegAlloc.

(** *** Example frames *)

Module Examples.
Import RegAlloc.

(** A virtual register [r] of class [c], and a physical register [r] of
    class [c], as graph nodes. *)
Definition vnode (r : register) (c : cls) (ms : gset instr) : ignode :=
  mkNode {[r]} None c ms false.

Definition pnode (r : register) (c : cls) (ms : gset instr) : ignode :=
  mkNode {[r]} (Some r) c ms true.

(** One class of three registers without aliases; the frame
    [v1 ← const; v2 ← mov v1; use v2]. *)
Definition arch3 : architecture :=
  mkArch [(0, [100; 101; 102])] (λ _, []) Nat.eqb.

Definition prog_mov : program :=
  mkProgram (λ i, bool_decide (i = 1))
    (λ i, match i with 1 => [1] | 2 => [2] | _ => [] end)
    (λ i, match i with 0 => [1] | 1 => [2] | _ => [] end).

Definition graph_mov : igraph :=
  mkGraph {[1; 2]} (<[1 := vnode 1 0 ∅]> (<[2 := vnode 2 0 ∅]> ∅)) ∅ ∅
    (<[1 := 1]> (<[2 := 2]> ∅)).

Definition colors3 : gmap register Z :=
  <[100 := 0%Z]> (<[101 := 1%Z]> (<[102 := 2%Z]> ∅)).

Definition frame_mov : state := enter [0; 1; 2] colors3.

(** The state in which [alloc_frame] leaves [frame_mov]. *)
Definition frame_mov_done : state :=
  match alloc_frame arch3 prog_mov (λ _, graph_mov) 10 frame_mov with
  | Ok (_, st) => st
  | _ => frame_mov
  end.

(** The state of [frame_mov] after the main loop. *)
Definition frame_mov_looped : state :=
  match (prepare arch3 prog_mov (λ _, graph_mov) ;;
         main_loop arch3 prog_mov 10) frame_mov with
  | Ok (_, st) => st
  | _ => frame_mov
  end.

(** One class with the single register 100; the virtual node 1 is on the
    select stack and its only neighbour is the node of register 100. *)
Definition arch1 : architecture := mkArch [(0, [100])] (λ _, []) Nat.eqb.

Definition graph_clash : igraph :=
  mkGraph {[1; 2]} (<[1 := vnode 1 0 ∅]> (<[2 := pnode 100 0 ∅]> ∅))
    (<[1 := {[2]}]> (<[2 := {[1]}]> ∅)) {[1]}
    (<[1 := 1]> (<[100 := 2]> ∅)).

Definition state_clash : state :=
  mkState [] (<[100 := 0%Z]> ∅) graph_clash {[2]} ∅ [] ∅ ∅ ∅ ∅ ∅ [1] [] [] [].

(** Two classes: class 0 with the registers 100 and 101, and its subclass 1
    with the register 100 only.  The move [v5 ← r100] joins the node 10 of
    the physical register 100, of class 1, and the node 11 of the virtual
    register 5, of class 0. *)
Definition arch_sub : architecture :=
  mkArch [(0, [100; 101]); (1, [100])] (λ _, [])
    (λ a b, (a =? b) || ((a =? 1) && (b =? 0))).

Definition prog_sub : program :=
  mkProgram (λ i, bool_decide (i = 0)) (λ _, [100]) (λ _, [5]).

Definition graph_sub : igraph :=
  mkGraph {[10; 11]} (<[10 := pnode 100 1 {[0]}]> (<[11 := vnode 5 0 {[0]}]> ∅))
    ∅ ∅ (<[100 := 10]> (<[5 := 11]> ∅)).

Definition state_sub : state :=
  mkState [0] (<[100 := 0%Z]> (<[101 := 1%Z]> ∅)) graph_sub {[10]} ∅ [0]
    ∅ ∅ ∅ ∅ {[0]} [] [] [11] [].

(** The same move with the classes exchanged: the physical register is of
    class 0 and the virtual register of its subclass 1. *)
Definition graph_super : igraph :=
  mkGraph {[10; 11]} (<[10 := pnode 100 0 {[0]}]> (<[11 := vnode 5 1 {[0]}]> ∅))
    ∅ ∅ (<[100 := 10]> (<[5 := 11]> ∅)).

Definition state_super : state :=
  mkState [0] (<[100 := 0%Z]> (<[101 := 1%Z]> ∅)) graph_super {[10]} ∅ [0]
    ∅ ∅ ∅ ∅ {[0]} [] [] [11] [].

(** A coloured graph: the node 1 holds the virtual register 1 and the
    physical register 101, and has the colour 101. *)
Definition state_colored : state :=
  mkState [] colors3
    (mkGraph {[1]} (<[1 := mkNode {[1; 101]} (Some 101) 0 ∅ false]> ∅) ∅ ∅
       (<[1 := 1]> (<[101 := 1]> ∅)))
    ∅ ∅ [] ∅ ∅ ∅ ∅ ∅ [] [] [] [].

End Examples.

(** ** Part II: theorems *)

Module FrameTheory.
Import Frame.

Section frame.
Context `{Countable lvar}.
Implicit Types (f : frame lvar) (k : lvar) (v : value).

(** *** [alloc_var] *)

Lemma alloc_var_fresh k size f :
  locVars f !! k = None →
  (alloc_var k size f).1 = stacksize f ∧
  stacksize (alloc_var k size f).2 = (stacksize f + size)%Z ∧
  locVars (alloc_var k size f).2 !! k = Some (stacksize f).
Proof.
  intros Hk. unfold alloc_var. rewrite Hk. simpl.
  by rewrite lookup_insert_eq.
Qed.

Lemma alloc_var_known k size f off :
  locVars f !! k = Some off → alloc_var k size f = (off, f).
Proof. intros Hk. unfold alloc_var. by rewrite Hk. Qed.

Lemma alloc_var_keeps k k' size f off :
  locVars f !! k = Some off → locVars (alloc_var k' size f).2 !! k = Some off.
Proof.
  intros Hk. unfold alloc_var.
  destruct (locVars f !! k') eqn:Hk'; simpl; [done|].
  rewrite lookup_insert_ne; [done|]. intros ->. congruence.
Qed.

Lemma run_op_keeps o k f off :
  locVars f !! k = Some off → locVars (run_op o f) !! k = Some off.
Proof.
  intros Hk. destruct o as [k' size|v|]; simpl.
  - by apply alloc_var_keeps.
  - unfold add_constant. by destruct (find_constant _ _).
  - unfold litpool. by destruct (litpool_loop _).
Qed.

Lemma run_ops_keeps os k f off :
  locVars f !! k = Some off → locVars (run_ops os f) !! k = Some off.
Proof.
  revert f. induction os as [|o os IH]; intros f Hk; [done|].
  apply IH. by apply run_op_keeps.
Qed.

(** *** [add_constant] and [litpool] *)

#[local] Instance literal_label_inj nm : Inj (=) (=) (literal_label nm).
Proof.
  intros a b Hab. unfold literal_label in Hab.
  apply String.app_inj, String.app_inj in Hab. by apply (inj pretty).
Qed.

Lemma find_constant_None v (cs : list (string * value)) :
  find_constant v cs = None ↔ v ∉ cs.*2.
Proof.
  induction cs as [|[lab val] cs IH]; simpl.
  - split; [intros _; apply not_elem_of_nil | done].
  - rewrite not_elem_of_cons. destruct (decide (v = val)) as [Heq|Hne].
    + split; [done | by intros [? _]].
    + rewrite IH. tauto.
Qed.

Lemma find_constant_Some v (cs : list (string * value)) lab :
  find_constant v cs = Some lab → (lab, v) ∈ cs.
Proof.
  induction cs as [|[lab' val] cs IH]; simpl; [done|].
  destruct (decide (v = val)) as [->|].
  - intros [= ->]. left.
  - intros. right. auto.
Qed.

Lemma find_constant_unique v (cs : list (string * value)) lab :
  NoDup cs.*2 → (lab, v) ∈ cs → find_constant v cs = Some lab.
Proof.
  induction cs as [|[lab' val] cs IH]; simpl.
  - intros _ Hin. by apply elem_of_nil in Hin.
  - rewrite NoDup_cons. intros [Hval Hnd] Hin.
    apply elem_of_cons in Hin as [[= -> ->]|Hin].
    + by rewrite decide_True.
    + destruct (decide (v = val)) as [->|]; [|by apply IH].
      destruct Hval. apply list_elem_of_fmap. by exists (lab, val).
Qed.

Lemma litpool_loop_rest (cs : list (string * value)) : (litpool_loop cs).2 = [].
Proof.
  induction cs as [|[label v] cs IH]; simpl; [done|].
  by destruct (litpool_loop cs).
Qed.

Lemma litpool_constants f : constants (litpool f).2 = [].
Proof.
  unfold litpool. pose proof (litpool_loop_rest (constants f)) as Hr.
  by destruct (litpool_loop (constants f)).
Qed.

Lemma litpool_literal_number f : literal_number (litpool f).2 = literal_number f.
Proof. unfold litpool. by destruct (litpool_loop (constants f)). Qed.

Lemma litpool_name f : name (litpool f).2 = name f.
Proof. unfold litpool. by destruct (litpool_loop (constants f)). Qed.

Lemma run_op_name o f : name (run_op o f) = name f.
Proof.
  destruct o as [k size|v|]; simpl.
  - unfold alloc_var. by destruct (locVars f !! k).
  - unfold add_constant. by destruct (find_constant _ _).
  - apply litpool_name.
Qed.

Lemma run_ops_name os f : name (run_ops os f) = name f.
Proof.
  revert f. induction os as [|o os IH]; intros f; [done|].
  simpl. by rewrite IH, run_op_name.
Qed.

Lemma pool_inv_new nm sz : pool_inv 0 (new_frame (lvar:=lvar) nm sz).
Proof.
  split; [done|]. split; [|constructor].
  exists []. split; [done|]. split; constructor.
Qed.

Lemma pool_inv_add_constant lo v f :
  pool_inv lo f → pool_inv lo (add_constant v f).2.
Proof.
  intros (Hlo & (ks & Hks & Hsort & Hbnd) & Hnd). unfold add_constant.
  destruct (find_constant v (constants f)) eqn:Hfind; simpl.
  { split; [done|]. split; [by exists ks | done]. }
  apply find_constant_None in Hfind.
  split; [simpl; lia|]. split; simpl.
  - exists (ks ++ [literal_number f]). split; [|split].
    + by rewrite !fmap_app, Hks.
    + apply StronglySorted_app_2; [|done|repeat constructor].
      intros x1 x2 Hx1 ->%list_elem_of_singleton.
      rewrite Forall_forall in Hbnd. apply Hbnd in Hx1. lia.
    + apply Forall_app. split.
      * eapply Forall_impl; [done|]. simpl. lia.
      * constructor; [lia | constructor].
  - rewrite fmap_app. apply NoDup_app. split; [done|]. split.
    + intros x Hx ->%list_elem_of_singleton. done.
    + apply NoDup_singleton.
Qed.

Lemma pool_inv_litpool lo f : pool_inv lo f → pool_inv lo (litpool f).2.
Proof.
  intros (Hlo & _ & _). unfold pool_inv.
  rewrite litpool_constants, litpool_literal_number.
  split; [done|]. split; [|constructor].
  exists []. split; [done|]. split; constructor.
Qed.

Lemma pool_inv_run_op lo o f : pool_inv lo f → pool_inv lo (run_op o f).
Proof.
  destruct o as [k size|v|]; simpl.
  - unfold alloc_var. by destruct (locVars f !! k).
  - apply pool_inv_add_constant.
  - apply pool_inv_litpool.
Qed.

Lemma pool_inv_run_ops lo os f : pool_inv lo f → pool_inv lo (run_ops os f).
Proof.
  revert f. induction os as [|o os IH]; intros f Hf; [done|].
  apply IH. by apply pool_inv_run_op.
Qed.

Lemma pool_inv_label lo f (lab : string) v :
  pool_inv lo f → (lab, v) ∈ constants f →
  ∃ n : Z, (lo ≤ n < literal_number f)%Z ∧ lab = literal_label (name f) n.
Proof.
  intros (_ & (ks & Hks & _ & Hbnd) & _) Hin.
  assert (lab ∈ (constants f).*1) as Hlab.
  { apply list_elem_of_fmap. by exists (lab, v). }
  rewrite Hks in Hlab. apply list_elem_of_fmap in Hlab as (n & -> & Hn).
  rewrite Forall_forall in Hbnd. eauto.
Qed.

Lemma increasing_NoDup (ks : list Z) : StronglySorted Z.lt ks → NoDup ks.
Proof.
  induction 1 as [|x ks Hsort IH Hx]; constructor; [|done].
  intros Hin. rewrite Forall_forall in Hx. apply Hx in Hin. lia.
Qed.

Lemma pool_inv_NoDup_labels lo f : pool_inv lo f → NoDup (constants f).*1.
Proof.
  intros (_ & (ks & Hks & Hsort & _) & _). rewrite Hks.
  apply (NoDup_fmap_2 _). by apply increasing_NoDup.
Qed.

Lemma NoDup_fst_functional {A B} (l : list (A * B)) x y1 y2 :
  NoDup l.*1 → (x, y1) ∈ l → (x, y2) ∈ l → y1 = y2.
Proof.
  induction l as [|[a b] l IH]; simpl.
  - intros _ Hin. by apply elem_of_nil in Hin.
  - rewrite NoDup_cons. intros [Ha Hnd] H1 H2.
    apply elem_of_cons in H1 as [E1|H1]; apply elem_of_cons in H2 as [E2|H2].
    + congruence.
    + injection E1 as -> ->. destruct Ha.
      apply list_elem_of_fmap. by exists (a, y2).
    + injection E2 as -> ->. destruct Ha.
      apply list_elem_of_fmap. by exists (a, y1).
    + by apply IH.
Qed.

(** C7: the first call of [alloc_var] for a key returns the current stack
    size and grows the stack by [size]; after any further calls on the frame,
    a call with the same key (and any size) returns that same offset and
    leaves the frame, so its stack size, as it is. *)
Theorem alloc_var_first_then_repeated k size f :
  locVars f !! k = None →
  (alloc_var k size f).1 = stacksize f ∧
  stacksize (alloc_var k size f).2 = (stacksize f + size)%Z ∧
  ∀ (os : list (op lvar)) (size' : Z),
    alloc_var k size' (run_ops os (alloc_var k size f).2)
    = ((alloc_var k size f).1, run_ops os (alloc_var k size f).2).
Proof.
  intros Hk. destruct (alloc_var_fresh k size f Hk) as (Hoff & Hsz & Hin).
  split; [done|]. split; [done|]. intros os size'.
  apply alloc_var_known. rewrite Hoff. by apply run_ops_keeps.
Qed.

(** C8: on a frame reached by any calls from a new frame, [add_constant]
    returns the label of the pooled entry with an equal value and leaves the
    frame unchanged; for a value not in the pool it returns the label made of
    the frame name and the counter, which labels no pooled entry, appends the
    pair to the pool and increments the counter; the labels of the pool are
    pairwise distinct, and so are its values. *)
Theorem add_constant_interns nm sz (os : list (op lvar)) v :
  let f := run_ops os (new_frame nm sz) in
  (∀ lab, (lab, v) ∈ constants f → add_constant v f = (lab, f)) ∧
  (v ∉ (constants f).*2 →
     let lab := literal_label nm (literal_number f) in
     (add_constant v f).1 = lab ∧
     constants (add_constant v f).2 = constants f ++ [(lab, v)] ∧
     literal_number (add_constant v f).2 = (literal_number f + 1)%Z ∧
     lab ∉ (constants f).*1) ∧
  NoDup (constants f).*1 ∧ NoDup (constants f).*2 ∧
  (∀ l1 v1 l2 v2, (l1, v1) ∈ constants f → (l2, v2) ∈ constants f →
     v1 ≠ v2 → l1 ≠ l2).
Proof.
  intros f.
  assert (pool_inv 0 f) as Hinv by apply pool_inv_run_ops, pool_inv_new.
  assert (name f = nm) as Hname by apply run_ops_name.
  pose proof (pool_inv_NoDup_labels _ _ Hinv) as Hlabs.
  destruct Hinv as (Hlo & (ks & Hks & Hsort & Hbnd) & Hnd).
  split; [|split; [|split; [done|split; [done|]]]].
  - intros lab Hin. unfold add_constant.
    by rewrite (find_constant_unique v _ lab Hnd Hin).
  - intros Hv lab. subst lab. apply find_constant_None in Hv.
    unfold add_constant. rewrite Hv. simpl. rewrite Hname.
    split; [done|]. split; [done|]. split; [done|].
    rewrite Hks, Hname. intros (n & Hn%(inj _) & Hin)%list_elem_of_fmap.
    subst n. rewrite Forall_forall in Hbnd. apply Hbnd in Hin. lia.
  - intros l1 v1 l2 v2 H1 H2 Hne ->. destruct Hne.
    by eapply NoDup_fst_functional.
Qed.

(** C10: iterating [litpool] to its end empties the pool; an [add_constant]
    right after it, for a value that was pooled under [lab] before, makes a
    new entry under a label different from [lab], and so does every later
    [add_constant] of that value, whatever is called in between. *)
Theorem litpool_then_add_constant nm sz (os : list (op lvar)) v (lab : string) :
  let f := run_ops os (new_frame nm sz) in
  (lab, v) ∈ constants f →
  constants (litpool f).2 = [] ∧
  (add_constant v (litpool f).2).1 ≠ lab ∧
  constants (add_constant v (litpool f).2).2
    = [((add_constant v (litpool f).2).1, v)] ∧
  ∀ os' : list (op lvar),
    (add_constant v (run_ops os' (litpool f).2)).1 ≠ lab.
Proof.
  intros f Hin.
  assert (pool_inv 0 f) as Hinv by apply pool_inv_run_ops, pool_inv_new.
  destruct (pool_inv_label _ _ _ _ Hinv Hin) as (n & Hn & ->).
  assert (pool_inv (literal_number f) (litpool f).2) as Hinv1.
  { unfold pool_inv. rewrite litpool_constants, litpool_literal_number.
    split; [done|]. split; [|constructor].
    exists []. split; [done|]. split; constructor. }
  assert (∀ os' : list (op lvar),
    (add_constant v (run_ops os' (litpool f).2)).1 ≠ literal_label (name f) n)
    as Hlater.
  { intros os'. set (g := run_ops os' (litpool f).2).
    assert (pool_inv (literal_number f) g) as Hg by by apply pool_inv_run_ops.
    assert (name g = name f) as Hname.
    { unfold g. by rewrite run_ops_name, litpool_name. }
    unfold add_constant.
    destruct (find_constant v (constants g)) as [lab'|] eqn:Hfind; simpl.
    - apply find_constant_Some in Hfind.
      destruct (pool_inv_label _ _ _ _ Hg Hfind) as (n' & Hn' & ->).
      rewrite Hname. intros ?%(inj _). lia.
    - rewrite Hname. intros ?%(inj _). destruct Hg as (Hlo & _). lia. }
  split; [apply litpool_constants|]. split; [apply (Hlater [])|].
  split; [|done].
  unfold add_constant. by rewrite litpool_constants.
Qed.

End frame.

(** *** [make_call] *)

Lemma save_loop_offset regs i :
  (save_loop regs i).2 = (i - 4 * Z.of_nat (length regs))%Z.
Proof.
  revert i. induction regs as [|r regs IH]; intros i; simpl; [lia|].
  specialize (IH (i - 4)%Z). destruct (save_loop regs (i - 4)) as [out i'].
  simpl in *. lia.
Qed.

Lemma restore_loop_offset regs i :
  (restore_loop regs i).2 = (i + 4 * Z.of_nat (length regs))%Z.
Proof.
  revert i. induction regs as [|r regs IH]; intros i; simpl; [lia|].
  specialize (IH (i + 4)%Z). destruct (restore_loop regs (i + 4)) as [out i'].
  simpl in *. lia.
Qed.

Lemma stack_trace_save regs i sp k :
  stack_trace sp ((save_loop regs i).1 ++ k)
  = (stores regs (sp + i) ++ (stack_trace sp k).1, (stack_trace sp k).2).
Proof.
  revert i. induction regs as [|r regs IH]; intros i; simpl.
  - by destruct (stack_trace sp k).
  - specialize (IH (i - 4)%Z). destruct (save_loop regs (i - 4)) as [out i'].
    simpl in *. rewrite IH. simpl.
    by replace (sp + (i - 4))%Z with (sp + i - 4)%Z by lia.
Qed.

Lemma stack_trace_restore regs i sp k :
  stack_trace sp ((restore_loop regs i).1 ++ k)
  = (loads regs (sp + i) ++ (stack_trace sp k).1, (stack_trace sp k).2).
Proof.
  revert i. induction regs as [|r regs IH]; intros i; simpl.
  - by destruct (stack_trace sp k).
  - specialize (IH (i + 4)%Z). destruct (restore_loop regs (i + 4)) as [out i'].
    simpl in *. rewrite IH. simpl.
    by replace (sp + (i + 4))%Z with (sp + i + 4)%Z by lia.
Qed.

(** The stack accesses of [make_call]: the live registers are stored from
    the entry stack pointer downwards, and reloaded, in reverse order, from
    the lowered stack pointer upwards; the stack pointer ends where it
    began. *)
Lemma make_call_trace live_regs_over c :
  stack_trace 0 (make_call live_regs_over c)
  = (stores (live_regs_over c) 0
       ++ loads (reverse (live_regs_over c))
            (- 4 * Z.of_nat (length (live_regs_over c))),
     0%Z).
Proof.
  unfold make_call. set (live := live_regs_over c).
  pose proof (save_loop_offset live 0) as Hi.
  pose proof (restore_loop_offset (reverse live) 0) as Hj.
  pose proof (stack_trace_save live 0 0) as Hsave.
  destruct (save_loop live 0) as [saves i].
  destruct (restore_loop (reverse live) 0) as [ld j] eqn:Hld.
  simpl in *. rewrite Hsave. simpl.
  pose proof (stack_trace_restore (reverse live) 0 (0 + i) [Add SP SP j])
    as Hrestore.
  rewrite Hld in Hrestore. simpl in Hrestore. rewrite Hrestore. simpl.
  rewrite length_reverse in Hj. rewrite app_nil_r.
  f_equal; [|lia]. do 2 f_equal. lia.
Qed.

Lemma stores_lookup regs a (k : nat) r :
  regs !! k = Some r → stores regs a !! k = Some (Store r (a - 4 * Z.of_nat k)).
Proof.
  revert a k. induction regs as [|r' regs IH]; intros a [|k]; simpl; try done.
  - intros [= ->]. do 2 f_equal. lia.
  - intros Hk. rewrite (IH _ _ Hk). do 2 f_equal. lia.
Qed.

Lemma loads_lookup regs a (k : nat) r :
  regs !! k = Some r → loads regs a !! k = Some (Load r (a + 4 * Z.of_nat k)).
Proof.
  revert a k. induction regs as [|r' regs IH]; intros a [|k]; simpl; try done.
  - intros [= ->]. do 2 f_equal. lia.
  - intros Hk. rewrite (IH _ _ Hk). do 2 f_equal. lia.
Qed.

Lemma length_stores regs a : length (stores regs a) = length regs.
Proof.
  revert a. induction regs as [|r regs IH]; intros a; simpl; [done|].
  by rewrite IH.
Qed.

(** The [k]-th live register is stored at [-4k] and reloaded from
    [-4k - 4], relative to the entry stack pointer. *)
Lemma make_call_slots live_regs_over c (k : nat) r :
  live_regs_over c !! k = Some r →
  let n := length (live_regs_over c) in
  (stack_trace 0 (make_call live_regs_over c)).1 !! k
  = Some (Store r (- 4 * Z.of_nat k)) ∧
  (stack_trace 0 (make_call live_regs_over c)).1 !! (n + (n - S k))
  = Some (Load r (- 4 * Z.of_nat k - 4)).
Proof.
  intros Hk n. rewrite make_call_trace. simpl.
  pose proof (lookup_lt_Some _ _ _ Hk) as Hlt. fold n in Hlt.
  split.
  - rewrite lookup_app_l by (rewrite length_stores; lia).
    rewrite (stores_lookup _ _ _ _ Hk). do 2 f_equal. lia.
  - rewrite lookup_app_r by (rewrite length_stores; fold n; lia).
    rewrite length_stores. fold n.
    replace (n + (n - S k) - n) with (n - S k) by lia.
    rewrite (loads_lookup _ _ _ r).
    + do 2 f_equal. lia.
    + rewrite reverse_lookup by (fold n; lia). fold n.
      by replace (n - S (n - S k)) with k by lia.
Qed.

(** C9, on the code: for one live register, [make_call] stores it at the
    entry stack pointer, lowers the stack pointer by 4, calls, and reloads
    the register from the lowered stack pointer, 4 below the slot it was
    stored to; the two stack-pointer adjustments do cancel. *)
Theorem make_call_reloads_below_store :
  let code := make_call (λ _, [VReg 0]) {| function_name := "callee" |} in
  code = [Sw SP (VReg 0) 0; Add SP SP (-4); Bl LR "callee";
          Lw SP (VReg 0) 0; Add SP SP 4] ∧
  store_slots (VReg 0) code = [0%Z] ∧
  load_slots (VReg 0) code = [(-4)%Z] ∧
  (stack_trace 0 code).2 = 0%Z.
Proof. by vm_compute. Qed.

(** Witnesses. *)

Lemma alloc_var_first_then_repeated_witness :
  (alloc_var 7 8 (new_frame (lvar:=nat) "main" 16)).1 = 16%Z ∧
  stacksize (alloc_var 7 8 (new_frame (lvar:=nat) "main" 16)).2 = (16 + 8)%Z ∧
  ∀ (os : list (op nat)) (size' : Z),
    alloc_var 7 size' (run_ops os (alloc_var 7 8 (new_frame "main" 16)).2)
    = ((alloc_var 7 8 (new_frame "main" 16)).1,
       run_ops os (alloc_var 7 8 (new_frame "main" 16)).2).
Proof.
  apply (alloc_var_first_then_repeated 7 8 (new_frame (lvar:=nat) "main" 16)).
  reflexivity.
Defined.

Lemma litpool_then_add_constant_witness :
  let f := run_ops [AddConstant (VInt 5)] (new_frame (lvar:=nat) "main" 0) in
  constants (litpool f).2 = [] ∧
  (add_constant (VInt 5) (litpool f).2).1 ≠ "main_literal_0" ∧
  constants (add_constant (VInt 5) (litpool f).2).2
    = [((add_constant (VInt 5) (litpool f).2).1, VInt 5)] ∧
  ∀ os' : list (op nat),
    (add_constant (VInt 5) (run_ops os' (litpool f).2)).1 ≠ "main_literal_0".
Proof.
  apply (litpool_then_add_constant "main" 0 [AddConstant (VInt 5)]
           (VInt 5) "main_literal_0").
  vm_compute. left.
Defined.

Lemma add_constant_interns_witness :
  let f := run_ops [AddConstant (VInt 5)] (new_frame (lvar:=nat) "main" 0) in
  add_constant (VInt 5) f = ("main_literal_0", f) ∧
  (add_constant (VStr "x") f).1 = "main_literal_1".
Proof.
  destruct (add_constant_interns (lvar:=nat) "main" 0 [AddConstant (VInt 5)]
              (VInt 5)) as (Hsame & _).
  destruct (add_constant_interns (lvar:=nat) "main" 0 [AddConstant (VInt 5)]
              (VStr "x")) as (_ & Hfresh & _).
  split.
  - apply Hsame. vm_compute. left.
  - apply Hfresh. vm_compute. by intros [H|H]%elem_of_cons; [|apply elem_of_nil in H].
Defined.

End FrameTheory.
Module RegAllocTheory.
Import RegAlloc.

(** *** A weakest-precondition calculus for the allocator monad *)

Lemma rsafe_bind {A B} (r : result A) (k : A → result B) :
  rsafe r → (∀ a, rsafe (k a)) → rsafe (r ≫= k).
Proof. destruct r; simpl; auto. Qed.

Lemma rsafe_or_raise {A} e (o : option A) :
  no_spill_error e → rsafe (or_raise e o).
Proof. by destruct o. Qed.

Lemma rsafe_map_r {A B} (f : A → result B) l :
  (∀ x, rsafe (f x)) → rsafe (map_r f l).
Proof.
  intros Hf. induction l as [|x l IH]; simpl; [done|].
  apply rsafe_bind; [done|]. intros y. by apply rsafe_bind.
Qed.

Lemma rsafe_all_r {A} (f : A → result bool) l :
  (∀ x, rsafe (f x)) → rsafe (all_r f l).
Proof.
  intros Hf. induction l as [|x l IH]; simpl; [done|].
  apply rsafe_bind; [done|]. by intros [].
Qed.

Lemma wp_ret {A} (a : A) Q st : Q a st → wp (mret a) Q st.
Proof. done. Qed.

Lemma wp_bind {A B} (m : M A) (k : A → M B) Q st :
  wp m (λ a st', wp (k a) Q st') st → wp (m ≫= k) Q st.
Proof. unfold wp, mbind, M_bind. by destruct (m st) as [[a st']| |]. Qed.

Lemma wp_get Q st : Q st st → wp get Q st.
Proof. done. Qed.

Lemma wp_modify f Q st : Q tt (f st) → wp (modify f) Q st.
Proof. done. Qed.

Lemma wp_raise {A} e (Q : A → state → Prop) st :
  no_spill_error e → wp (raise e) Q st.
Proof. done. Qed.

Lemma wp_lift {A} (r : result A) Q st :
  rsafe r → (∀ a, r = Ok a → Q a st) → wp (lift r) Q st.
Proof. unfold wp, lift. destruct r; simpl; auto. Qed.

Lemma wp_mono {A} (m : M A) (Q Q' : A → state → Prop) st :
  wp m Q st → (∀ a st', Q a st' → Q' a st') → wp m Q' st.
Proof. unfold wp. destruct (m st) as [[a st']| |]; auto. Qed.

Lemma wp_for {A} (I : state → Prop) (l : list A) body st :
  (∀ x st', x ∈ l → I st' → wp (body x) (λ _, I) st') →
  I st → wp (for_ l body) (λ _, I) st.
Proof.
  revert st. induction l as [|x l IH]; intros st Hbody HI; simpl; [done|].
  apply wp_bind. eapply wp_mono; [apply Hbody; [left|done]|].
  intros [] st' HI'. apply IH; [|done].
  intros y st'' Hy. apply Hbody. by right.
Qed.

Lemma wp_repeat (I : state → Prop) n m st :
  (∀ st', I st' → wp m (λ _, I) st') → I st → wp (repeat_ n m) (λ _, I) st.
Proof.
  intros Hm. revert st. induction n as [|n IH]; intros st HI; simpl; [done|].
  apply wp_bind. eapply wp_mono; [by apply Hm|]. intros [] st'. apply IH.
Qed.

(** What [wp] says about a run that returned or raised. *)
Lemma wp_Ok {A} (m : M A) Q st a st' : wp m Q st → m st = Ok (a, st') → Q a st'.
Proof. unfold wp. intros H Hm. by rewrite Hm in H. Qed.

Lemma wp_Raise {A} (m : M A) Q st : wp m Q st → m st ≠ Raise NotImplementedError.
Proof. unfold wp. intros H Hm. by rewrite Hm in H. Qed.

(** *** Results that do not raise the spill error *)

Section rsafe.
Variable arch : architecture.

Lemma rsafe_q B C : rsafe (q arch B C).
Proof.
  unfold RegAlloc.q. apply rsafe_bind; [by apply rsafe_or_raise|]. intros B_regs.
  apply rsafe_bind; [by apply rsafe_or_raise|]. intros C_regs.
  by destruct (elements C_regs).
Qed.

Lemma rsafe_is_colorable g n : rsafe (is_colorable arch g n).
Proof.
  unfold RegAlloc.is_colorable. destruct (is_colored _); [done|].
  apply rsafe_bind; [apply rsafe_map_r; intros; apply rsafe_q|]. intros blocked.
  apply rsafe_bind; [by apply rsafe_or_raise|]. done.
Qed.

Lemma rsafe_common_reg_class u v : rsafe (common_reg_class arch u v).
Proof. unfold common_reg_class. by repeat case_match. Qed.

Lemma rsafe_ok g t r : rsafe (ok arch g t r).
Proof.
  unfold ok. destruct (is_colored _); [done|].
  apply rsafe_bind; [apply rsafe_is_colorable|]. by intros [].
Qed.

Lemma rsafe_conservative g u v : rsafe (conservative arch g u v).
Proof.
  unfold conservative.
  apply rsafe_bind; [apply rsafe_map_r, rsafe_is_colorable|]. intros cs.
  apply rsafe_bind; [apply rsafe_common_reg_class|]. intros c.
  apply rsafe_bind; [by apply rsafe_or_raise|]. done.
Qed.

Lemma rsafe_coalesc_test g u v : rsafe (coalesc_test arch g u v).
Proof.
  unfold coalesc_test. apply rsafe_bind.
  - repeat case_match; try done. apply rsafe_all_r. intros; apply rsafe_ok.
  - intros []; [done|]. case_match; [apply rsafe_conservative|done].
Qed.

Lemma rsafe_get_node g r : rsafe (get_node g r).
Proof. by apply rsafe_or_raise. Qed.

End rsafe.

(** *** The primitive operations *)

Section primitives.
Variable prog : program.

Lemma wp_pop_simplifyWorklist Q st :
  (∀ n l, list_pop (simplifyWorklist st) = Some (n, l) →
          Q n (set_simplifyWorklist (λ _, l) st)) →
  wp pop_simplifyWorklist Q st.
Proof.
  intros HQ. unfold wp, pop_simplifyWorklist.
  destruct (list_pop _) as [[n l]|]; [by apply HQ|done].
Qed.

Lemma wp_pop_freeze_worklist Q st :
  (∀ n l, list_pop (freeze_worklist st) = Some (n, l) →
          Q n (set_freeze_worklist (λ _, l) st)) →
  wp pop_freeze_worklist Q st.
Proof.
  intros HQ. unfold wp, pop_freeze_worklist.
  destruct (list_pop _) as [[n l]|]; [by apply HQ|done].
Qed.

Lemma wp_pop_select_stack Q st :
  (∀ n l, list_pop (select_stack st) = Some (n, l) →
          Q n (set_select_stack (λ _, l) st)) →
  wp pop_select_stack Q st.
Proof.
  intros HQ. unfold wp, pop_select_stack.
  destruct (list_pop _) as [[n l]|]; [by apply HQ|done].
Qed.

Lemma wp_pop_worklistMoves Q st :
  (∀ m s, set_pop (worklistMoves st) = Some (m, s) →
          Q m (set_worklistMoves (λ _, s) st)) →
  wp pop_worklistMoves Q st.
Proof.
  intros HQ. unfold wp, pop_worklistMoves.
  destruct (set_pop _) as [[m s]|]; [by apply HQ|done].
Qed.

Lemma wp_remove_spillWorklist n Q st :
  (∀ l, list_remove n (spillWorklist st) = Some l →
        Q tt (set_spillWorklist (λ _, l) st)) →
  wp (remove_spillWorklist n) Q st.
Proof.
  intros HQ. unfold wp, remove_spillWorklist.
  destruct (list_remove _ _) as [l|]; [by apply HQ|done].
Qed.

Lemma wp_remove_freeze_worklist n Q st :
  (∀ l, list_remove n (freeze_worklist st) = Some l →
        Q tt (set_freeze_worklist (λ _, l) st)) →
  wp (remove_freeze_worklist n) Q st.
Proof.
  intros HQ. unfold wp, remove_freeze_worklist.
  destruct (list_remove _ _) as [l|]; [by apply HQ|done].
Qed.

Lemma wp_remove_instruction i Q st :
  (∀ l, list_remove i (instructions st) = Some l →
        Q tt (set_instructions (λ _, l) st)) →
  wp (remove_instruction i) Q st.
Proof.
  intros HQ. unfold wp, remove_instruction.
  destruct (list_remove _ _) as [l|]; [by apply HQ|done].
Qed.

Lemma wp_remove_activeMoves m Q st :
  (m ∈ activeMoves st → Q tt (set_activeMoves (λ s, s ∖ {[m]}) st)) →
  wp (remove_activeMoves m) Q st.
Proof.
  intros HQ. unfold wp, remove_activeMoves. by case_decide; [apply HQ|].
Qed.

Lemma wp_remove_worklistMoves m Q st :
  (m ∈ worklistMoves st → Q tt (set_worklistMoves (λ s, s ∖ {[m]}) st)) →
  wp (remove_worklistMoves m) Q st.
Proof.
  intros HQ. unfold wp, remove_worklistMoves. by case_decide; [apply HQ|].
Qed.

Lemma wp_Node r Q st :
  (∀ n, get_node (ig st) r = Ok n → Q n st) → wp (Node r) Q st.
Proof.
  intros HQ. unfold Node. apply wp_bind, wp_get, wp_lift; [|done].
  apply rsafe_get_node.
Qed.

Lemma wp_used0 m Q st :
  (∀ r, head (used_registers prog m) = Some r → Q r st) → wp (used0 prog m) Q st.
Proof.
  intros HQ. unfold used0. apply wp_lift; [by apply rsafe_or_raise|].
  intros r Hr. apply HQ. by destruct (head _); simplify_eq/=.
Qed.

Lemma wp_defined0 m Q st :
  (∀ r, head (defined_registers prog m) = Some r → Q r st) →
  wp (defined0 prog m) Q st.
Proof.
  intros HQ. unfold defined0. apply wp_lift; [by apply rsafe_or_raise|].
  intros r Hr. apply HQ. by destruct (head _); simplify_eq/=.
Qed.

End primitives.

(** One step of a [wp] proof. *)
Ltac wp_step :=
  lazymatch goal with
  | |- wp (mret _) _ _ => apply wp_ret
  | |- wp (mbind _ _) _ _ => apply wp_bind
  | |- wp get _ _ => apply wp_get
  | |- wp (modify _) _ _ => apply wp_modify
  | |- wp (raise _) _ _ => by apply wp_raise
  | |- wp (lift _) _ _ =>
      apply wp_lift;
      [first [ by apply rsafe_or_raise
             | auto using rsafe_is_colorable, rsafe_common_reg_class,
                 rsafe_coalesc_test, rsafe_get_node ]
      |intros ? ?]
  | |- wp pop_simplifyWorklist _ _ => apply wp_pop_simplifyWorklist; intros ? ? ?
  | |- wp pop_freeze_worklist _ _ => apply wp_pop_freeze_worklist; intros ? ? ?
  | |- wp pop_select_stack _ _ => apply wp_pop_select_stack; intros ? ? ?
  | |- wp pop_worklistMoves _ _ => apply wp_pop_worklistMoves; intros ? ? ?
  | |- wp (remove_spillWorklist _) _ _ => apply wp_remove_spillWorklist; intros ? ?
  | |- wp (remove_freeze_worklist _) _ _ => apply wp_remove_freeze_worklist; intros ? ?
  | |- wp (remove_instruction _) _ _ => apply wp_remove_instruction; intros ? ?
  | |- wp (remove_activeMoves _) _ _ => apply wp_remove_activeMoves; intros ?
  | |- wp (remove_worklistMoves _) _ _ => apply wp_remove_worklistMoves; intros ?
  | |- wp (Node _) _ _ => apply wp_Node; intros ? ?
  | |- wp (used0 _ _) _ _ => apply wp_used0; intros ? ?
  | |- wp (defined0 _ _) _ _ => apply wp_defined0; intros ? ?
  | |- wp (append_spillWorklist _) _ _ => apply wp_modify
  | |- wp (append_freeze_worklist _) _ _ => apply wp_modify
  | |- wp (append_simplifyWorklist _) _ _ => apply wp_modify
  | |- wp (append_select_stack _) _ _ => apply wp_modify
  | |- wp (add_coalescedMoves _) _ _ => apply wp_modify
  | |- wp (add_constrainedMoves _) _ _ => apply wp_modify
  | |- wp (add_frozenMoves _) _ _ => apply wp_modify
  | |- wp (add_activeMoves _) _ _ => apply wp_modify
  | |- wp (add_worklistMoves _) _ _ => apply wp_modify
  | |- wp (let _ := _ in _) _ _ => cbv zeta
  | |- wp (if ?b then _ else _) _ _ => destruct b eqn:?
  | |- wp (match ?x with _ => _ end) _ _ => destruct x eqn:?
  end.

Ltac wp_steps := repeat wp_step.


(** *** Counting the sets an instruction lies in *)

Lemma occ_add (m x : instr) (s : gset instr) :
  m ∉ s → occ x (s ∪ {[m]}) = occ x s + occ x {[m]}.
Proof.
  unfold occ. intros Hm.
  repeat case_decide; try done; exfalso;
    rewrite ?elem_of_union, ?elem_of_singleton in *; subst; tauto.
Qed.

Lemma occ_del (m x : instr) (s : gset instr) :
  m ∈ s → occ x (s ∖ {[m]}) + occ x {[m]} = occ x s.
Proof.
  unfold occ. intros Hm.
  repeat case_decide; try done; exfalso;
    rewrite ?elem_of_difference, ?elem_of_singleton in *; subst; tauto.
Qed.

Lemma occ_empty (x : instr) : occ x ∅ = 0.
Proof. unfold occ. case_decide; [|done]. by apply not_elem_of_empty in H. Qed.

Lemma occ_self (m : instr) : occ m {[m]} = 1.
Proof. unfold occ. case_decide; [done|]. by rewrite elem_of_singleton in H. Qed.

Lemma occ_le (x : instr) (s : gset instr) : occ x s ≤ 1.
Proof. unfold occ. case_decide; lia. Qed.

Lemma occ_0 (x : instr) (s : gset instr) : occ x s = 0 → x ∉ s.
Proof. unfold occ. by case_decide. Qed.

Lemma occ_1 (x : instr) (s : gset instr) : x ∈ s → occ x s = 1.
Proof. unfold occ. by case_decide. Qed.

Lemma set_pop_Some (s s' : gset instr) m :
  set_pop s = Some (m, s') → m ∈ s ∧ s' = s ∖ {[m]}.
Proof.
  unfold set_pop. destruct (elements s) as [|x l] eqn:Hel; [done|].
  intros [= -> <-]. split; [|done]. apply elem_of_elements. rewrite Hel. left.
Qed.

(** Unfolds the invariant at [x] and at the moved instruction [m]. *)
Ltac inv_unfold H m x :=
  let Hm := fresh "Hm" in
  pose proof (H m) as Hm; specialize (H x);
  unfold occurrences, move_sets in *; simpl in *;
  rewrite ?occ_self, ?occ_empty in H; rewrite ?occ_self, ?occ_empty in Hm;
  rewrite ?occ_self, ?occ_empty.

Section moves_inv.
Variable all : gset instr.

(** An instruction goes from the hand into a set. *)
Lemma inv_put_coalesced m st :
  moves_inv all {[m]} st → moves_inv all ∅ (set_coalescedMoves (λ s, s ∪ {[m]}) st).
Proof.
  intros H x. inv_unfold H m x.
  pose proof (occ_le m all).
  rewrite occ_add; [lia|]. apply occ_0. lia.
Qed.

Lemma inv_put_constrained m st :
  moves_inv all {[m]} st → moves_inv all ∅ (set_constrainedMoves (λ s, s ∪ {[m]}) st).
Proof.
  intros H x. inv_unfold H m x.
  pose proof (occ_le m all).
  rewrite occ_add; [lia|]. apply occ_0. lia.
Qed.

Lemma inv_put_frozen m st :
  moves_inv all {[m]} st → moves_inv all ∅ (set_frozenMoves (λ s, s ∪ {[m]}) st).
Proof.
  intros H x. inv_unfold H m x.
  pose proof (occ_le m all).
  rewrite occ_add; [lia|]. apply occ_0. lia.
Qed.

Lemma inv_put_active m st :
  moves_inv all {[m]} st → moves_inv all ∅ (set_activeMoves (λ s, s ∪ {[m]}) st).
Proof.
  intros H x. inv_unfold H m x.
  pose proof (occ_le m all).
  rewrite occ_add; [lia|]. apply occ_0. lia.
Qed.

(** An instruction is taken out of a set into the hand. *)
Lemma inv_take_worklist m st :
  moves_inv all ∅ st → m ∈ worklistMoves st →
  moves_inv all {[m]} (set_worklistMoves (λ s, s ∖ {[m]}) st).
Proof.
  intros H Hin x. inv_unfold H m x.
  pose proof (occ_del m x _ Hin). lia.
Qed.

Lemma inv_take_active m st :
  moves_inv all ∅ st → m ∈ activeMoves st →
  moves_inv all {[m]} (set_activeMoves (λ s, s ∖ {[m]}) st).
Proof.
  intros H Hin x. inv_unfold H m x.
  pose proof (occ_del m x _ Hin). lia.
Qed.

(** [EnableMoves]: an instruction goes from [activeMoves] to
    [worklistMoves]. *)
Lemma inv_enable h m st :
  moves_inv all h st → m ∈ activeMoves st →
  moves_inv all h
    (set_worklistMoves (λ s, s ∪ {[m]}) (set_activeMoves (λ s, s ∖ {[m]}) st)).
Proof.
  intros H Hin x. inv_unfold H m x.
  pose proof (occ_del m x _ Hin). pose proof (occ_1 _ _ Hin).
  pose proof (occ_le m all).
  rewrite occ_add; [lia|]. apply occ_0. lia.
Qed.

End moves_inv.


(** *** The tables of [__init__] and the pq-test *)

Lemma foldl_or {S A} (P : S → Prop) (N : A → Prop) (f : S → A → S) :
  (∀ s z, P (f s z) ↔ P s ∨ N z) →
  ∀ (l : list A) s, P (foldl f s l) ↔ P s ∨ ∃ z, z ∈ l ∧ N z.
Proof.
  intros Hf l. induction l as [|z l IH]; intros s; simpl.
  - split; [by left|]. intros [?|(z & Hz & _)]; [done|].
    by apply elem_of_nil in Hz.
  - rewrite IH, Hf. split.
    + intros [[?|?]|(z' & Hz' & ?)]; [by left|right..].
      * exists z. split; [left|done].
      * exists z'. split; [by right|done].
    + intros [?|(z' & [->|Hz']%elem_of_cons & ?)]; [by left; left|by left; right|].
      right. by exists z'.
Qed.

Lemma elem_of_alias_add a r r2 x y :
  y ∈ alias_get (alias_add a r r2) x ↔ (x = r ∧ y = r2) ∨ y ∈ alias_get a x.
Proof.
  unfold alias_get, alias_add. destruct (decide (r = x)) as [->|Hne].
  - rewrite lookup_insert_eq. simpl. rewrite elem_of_union, elem_of_singleton.
    tauto.
  - rewrite lookup_insert_ne by done. split; [by right|].
    by intros [[? _]|?].
Qed.

Section tables.
Variable arch : architecture.

Lemma elem_of_alias x y :
  y ∈ alias_get (alias (self arch)) x ↔
  (x ∈ all_registers arch ∧ (y = x ∨ y ∈ aliases arch x)) ∨
  (y ∈ all_registers arch ∧ x ∈ aliases arch y).
Proof.
  unfold self.
  rewrite (foldl_or (λ t, y ∈ alias_get (alias t) x)
    (λ val : cls * list register, ∃ r, r ∈ val.2 ∧
       ((x = r ∧ (y = r ∨ y ∈ aliases arch r)) ∨ (y = r ∧ x ∈ aliases arch r)))).
  - simpl. unfold alias_get at 1. rewrite lookup_empty. simpl.
    unfold all_registers. split.
    + intros [Hf|([k regs] & Hval & r & Hr & H)]; [by apply not_elem_of_empty in Hf|].
      simpl in *.
      assert (r ∈ mjoin ((register_classes arch).*2)) as Hall.
      { apply list_elem_of_join. exists regs. split; [done|].
        apply list_elem_of_fmap. by exists (k, regs). }
      destruct H as [[-> H]|[-> H]]; [left|right]; done.
    + intros H. right.
      assert (∀ r, r ∈ mjoin ((register_classes arch).*2) →
               ∃ val : cls * list register, val ∈ register_classes arch ∧ r ∈ val.2) as Hall.
      { intros r (regs & Hr & ([k regs'] & -> & Hin)%list_elem_of_fmap)%list_elem_of_join.
        by exists (k, regs'). }
      destruct H as [[Hx H]|[Hy H]].
      * destruct (Hall _ Hx) as (val & Hval & Hr). exists val. split; [done|].
        exists x. split; [done|]. by left.
      * destruct (Hall _ Hy) as (val & Hval & Hr). exists val. split; [done|].
        exists y. split; [done|]. by right.
  - intros t [k regs]. simpl.
    rewrite (foldl_or (λ a, y ∈ alias_get a x)
      (λ r, (x = r ∧ (y = r ∨ y ∈ aliases arch r)) ∨ (y = r ∧ x ∈ aliases arch r))).
    { done. }
    intros a r.
    rewrite (foldl_or (λ a, y ∈ alias_get a x)
      (λ r2, (x = r ∧ y = r2) ∨ (x = r2 ∧ y = r))).
    + rewrite elem_of_alias_add. split.
      * intros [[[-> ->]|?]|(r2 & ? & [[-> ->]|[-> ->]])]; eauto 6.
      * intros [?|[[-> [->|?]]|[-> ?]]]; eauto 8.
    + intros a' r2. rewrite !elem_of_alias_add. tauto.
Qed.

Lemma class_lookup_snoc l k regs C :
  class_lookup (l ++ [(k, regs)]) C
  = if decide (k = C) then Some regs else class_lookup l C.
Proof.
  induction l as [|[k' regs'] l IH]; simpl; [done|].
  rewrite IH. by repeat case_decide; try destruct (class_lookup l C).
Qed.

Lemma class_lookup_elem_of l C regs :
  class_lookup l C = Some regs → (C, regs) ∈ l.
Proof.
  induction l as [|[k' regs'] l IH]; simpl; [done|].
  destruct (class_lookup l C) as [r|].
  - intros [= ->]. right. by apply IH.
  - case_decide; [|done]. intros [= ->]. subst. left.
Qed.

Lemma tables_lookup C :
  K (self arch) !! C = length <$> class_lookup (register_classes arch) C ∧
  cls_regs (self arch) !! C
  = list_to_set <$> class_lookup (register_classes arch) C.
Proof.
  unfold self. induction (register_classes arch) as [|[k regs] l IH] using rev_ind.
  - done.
  - rewrite foldl_app, class_lookup_snoc. simpl. destruct IH as [IH1 IH2].
    case_decide as Hk.
    + subst. by rewrite !lookup_insert_eq.
    + by rewrite !lookup_insert_ne.
Qed.

Lemma class_regs_all C r : r ∈ class_regs arch C → r ∈ all_registers arch.
Proof.
  unfold class_regs, all_registers.
  destruct (class_lookup _ C) as [regs|] eqn:Hc; simpl.
  - intros Hr. apply class_lookup_elem_of in Hc.
    apply list_elem_of_join. exists regs. split; [done|].
    apply list_elem_of_fmap. by exists (C, regs).
  - intros Hr. by apply elem_of_nil in Hr.
Qed.

Lemma max_list_le (l : list nat) n : max_list l ≤ n ↔ ∀ x, x ∈ l → x ≤ n.
Proof.
  induction l as [|y l IH]; simpl.
  - split; [|lia]. intros _ x Hx. by apply elem_of_nil in Hx.
  - rewrite Nat.max_lub_iff, IH. split.
    + intros [Hy Hl] x [->|Hx]%elem_of_cons; auto.
    + intros H. split; [apply H; left|]. intros x Hx. apply H. by right.
Qed.

Lemma max_list_same {A} (f : A → nat) (l1 l2 : list A) :
  (∀ x, x ∈ l1 ↔ x ∈ l2) → max_list (f <$> l1) = max_list (f <$> l2).
Proof.
  intros Hl. apply Nat.le_antisymm; apply max_list_le.
  - intros n (x & -> & Hx)%list_elem_of_fmap. apply max_list_elem_of_le.
    apply list_elem_of_fmap. exists x. by rewrite <-Hl.
  - intros n (x & -> & Hx)%list_elem_of_fmap. apply max_list_elem_of_le.
    apply list_elem_of_fmap. exists x. by rewrite Hl.
Qed.

(** [q] computes the [q] of the specification for two classes of the
    architecture, the second with a register. *)
Lemma q_eq B C bs cs :
  class_lookup (register_classes arch) B = Some bs →
  class_lookup (register_classes arch) C = Some cs →
  cs ≠ [] →
  q arch B C = Ok (q_spec arch B C).
Proof.
  intros HB HC Hcs. unfold q, q_spec, class_regs.
  destruct (tables_lookup B) as [_ ->]. destruct (tables_lookup C) as [_ ->].
  rewrite HB, HC. simpl.
  destruct (elements (list_to_set cs : gset register)) as [|c l] eqn:Hel.
  { apply elements_empty_inv, leibniz_equiv in Hel.
    destruct cs as [|c cs]; [done|].
    assert (c ∈ (list_to_set (c :: cs) : gset register)) as Hc.
    { apply elem_of_list_to_set. left. }
    rewrite Hel in Hc. by apply not_elem_of_empty in Hc. }
  transitivity (Ok (A:=nat) (max_list
    ((λ r, size (alias_get (alias (self arch)) r ∩ list_to_set bs))
     <$> elements (list_to_set cs : gset register)))).
  { by rewrite Hel. }
  clear Hel. f_equal.
  rewrite (max_list_same _ (elements (list_to_set cs : gset register)) cs).
  2: { intros x. by rewrite elem_of_elements, elem_of_list_to_set. }
  f_equal. apply list_fmap_ext. intros i r Hr. f_equal.
  apply set_eq. intros b.
  rewrite elem_of_intersection, elem_of_filter, elem_of_alias, elem_of_list_to_set.
  assert (r ∈ all_registers arch) as Hrall.
  { apply class_regs_all with C. unfold class_regs. rewrite HC. simpl.
    by eapply list_elem_of_lookup_2. }
  unfold aliased. split.
  - intros [[[_ H]|[_ H]] Hb]; tauto.
  - intros [H Hb]. split; [|done].
    assert (b ∈ all_registers arch) as Hball.
    { apply class_regs_all with B. unfold class_regs. by rewrite HB. }
    tauto.
Qed.

Lemma map_r_Ok {A B} (f : A → result B) (h : A → B) (l : list A) :
  (∀ x, x ∈ l → f x = Ok (h x)) → map_r f l = Ok (h <$> l).
Proof.
  induction l as [|x l IH]; intros Hf; simpl; [done|].
  rewrite (Hf x) by left. simpl. rewrite IH; [done|].
  intros y Hy. apply Hf. by right.
Qed.

Lemma map_r_Raise {A B} (f : A → result B) (l : list A) x e :
  map_r f l = Ok x → (∀ y, y ∈ l → f y = Raise e) → l = [].
Proof.
  destruct l as [|y l]; [done|]. simpl. intros Hm Hf.
  by rewrite (Hf y) in Hm by left.
Qed.

Lemma cls_regs_nonempty C R :
  cls_regs (self arch) !! C = Some R → R ≠ ∅ →
  ∃ cs, class_lookup (register_classes arch) C = Some cs ∧ cs ≠ [].
Proof.
  destruct (tables_lookup C) as [_ ->].
  destruct (class_lookup _ C) as [cs|]; simpl; [|done].
  intros [= <-] Hne. exists cs. split; [done|]. by intros ->.
Qed.

Lemma is_colorable_uncolored g n k :
  is_colored (node_of g n) = false →
  K (self arch) !! reg_class (node_of g n) = Some k →
  (∀ m, m ∈ adjecent g n →
     ∃ R, cls_regs (self arch) !! reg_class (node_of g m) = Some R ∧ R ≠ ∅) →
  is_colorable arch g n = Ok (bool_decide (pq_sum arch g n < k)).
Proof.
  intros Hcol HK Hadj. unfold is_colorable. rewrite Hcol.
  destruct (tables_lookup (reg_class (node_of g n))) as [HKl _].
  rewrite HK in HKl.
  destruct (class_lookup _ (reg_class (node_of g n))) as [bs|] eqn:HB; [|done].
  rewrite (map_r_Ok _ (λ m, q_spec arch (reg_class (node_of g n))
                              (reg_class (node_of g m)))).
  - simpl. by rewrite HK.
  - intros m Hm. apply elem_of_elements in Hm.
    destruct (Hadj m Hm) as (R & HR & Hne).
    destruct (cls_regs_nonempty _ _ HR Hne) as (cs & HC & Hcs).
    by eapply q_eq.
Qed.

Lemma q_spec_single B regs :
  register_classes arch = [(B, regs)] → (∀ r, aliases arch r = []) →
  regs ≠ [] → q_spec arch B B = 1.
Proof.
  intros Hcl Hal Hne. unfold q_spec, class_regs. rewrite Hcl. simpl.
  rewrite decide_True by done. simpl.
  assert (∀ r, r ∈ regs →
    size (filter (aliased arch r) (list_to_set regs : gset register)) = 1) as H1.
  { intros r Hr.
    replace (filter (aliased arch r) (list_to_set regs : gset register))
      with ({[r]} : gset register); [apply size_singleton|].
    apply set_eq. intros b.
    rewrite elem_of_singleton, elem_of_filter, elem_of_list_to_set.
    unfold aliased. rewrite !Hal. split.
    - intros ->. split; [by left|done].
    - intros [[->|[H|H]] _]; [done|by apply elem_of_nil in H..]. }
  apply Nat.le_antisymm.
  - apply max_list_le. intros x (r & -> & Hr)%list_elem_of_fmap.
    by rewrite H1.
  - destruct regs as [|r regs']; [done|]. simpl.
    rewrite H1 by left. lia.
Qed.

(** C2: [is_colorable] returns true for a pre-coloured node; for a node of
    a class of the architecture all of whose neighbours are of classes with
    a register, it returns true exactly when the node is pre-coloured or
    the sum of [q] over its neighbours is below [K] of its class, for the
    [q] of the specification; with one register class and no aliases it
    returns true exactly when the node is pre-coloured or has fewer
    neighbours than [K]. *)
Theorem is_colorable_pq g n :
  (is_colored (node_of g n) = true → is_colorable arch g n = Ok true) ∧
  (∀ k,
     K (self arch) !! reg_class (node_of g n) = Some k →
     (∀ m, m ∈ adjecent g n →
        ∃ R, cls_regs (self arch) !! reg_class (node_of g m) = Some R ∧
             R ≠ ∅) →
     (is_colorable arch g n = Ok true ↔
      is_colored (node_of g n) = true ∨ pq_sum arch g n < k)) ∧
  (∀ regs,
     register_classes arch = [(reg_class (node_of g n), regs)] →
     (∀ r, aliases arch r = []) →
     (∀ m, m ∈ adjecent g n →
        reg_class (node_of g m) = reg_class (node_of g n)) →
     K (self arch) !! reg_class (node_of g n) = Some (length regs) ∧
     (is_colorable arch g n = Ok true ↔
      is_colored (node_of g n) = true ∨ size (adjecent g n) < length regs)).
Proof.
  assert (is_colored (node_of g n) = true → is_colorable arch g n = Ok true)
    as Hcolored.
  { intros Hcol. unfold is_colorable. by rewrite Hcol. }
  assert (∀ k,
     K (self arch) !! reg_class (node_of g n) = Some k →
     (∀ m, m ∈ adjecent g n →
        ∃ R, cls_regs (self arch) !! reg_class (node_of g m) = Some R ∧
             R ≠ ∅) →
     (is_colorable arch g n = Ok true ↔
      is_colored (node_of g n) = true ∨ pq_sum arch g n < k)) as Hgeneral.
  { intros k HK Hadj. destruct (is_colored (node_of g n)) eqn:Hcol.
    - split; [by left|]. intros _. by apply Hcolored.
    - rewrite (is_colorable_uncolored g n k) by done. split.
      + intros [= Hlt%bool_decide_eq_true]. by right.
      + intros [?|Hlt]; [done|]. by rewrite bool_decide_eq_true_2. }
  split; [done|]. split; [done|].
  intros regs Hcl Hal Hsame.
  set (B := reg_class (node_of g n)) in *.
  assert (K (self arch) !! B = Some (length regs) ∧
          cls_regs (self arch) !! B = Some (list_to_set regs)) as [HK HR].
  { destruct (tables_lookup B) as [-> ->]. rewrite Hcl. simpl.
    by rewrite decide_True. }
  split; [done|].
  destruct regs as [|r0 regs'] eqn:Hregs.
  - (* a class without registers *)
    simpl. split; [|intros [?|?]; [by apply Hcolored|lia]].
    intros Hrun. left. destruct (is_colored (node_of g n)) eqn:Hcol; [done|].
    exfalso. unfold is_colorable in Hrun. rewrite Hcol in Hrun. fold B in Hrun.
    destruct (map_r _ _) as [blocked| |] eqn:Hmap; [|done..].
    apply map_r_Raise with (e := ValueError) in Hmap as Hnil.
    + rewrite Hnil in Hmap. injection Hmap as <-. simpl in Hrun.
      rewrite HK in Hrun. simpl in Hrun. done.
    + intros m Hm. apply elem_of_elements in Hm. rewrite (Hsame m Hm).
      unfold q. rewrite HR. simpl. by rewrite elements_empty.
  - rewrite <-Hregs in *.
    assert (regs ≠ []) as Hne by by rewrite Hregs.
    rewrite (Hgeneral (length regs) HK).
    + replace (pq_sum arch g n) with (size (adjecent g n)); [done|].
      unfold pq_sum. fold B.
      rewrite (sum_list_fmap_same 1).
      * unfold size, set_size. simpl. lia.
      * apply Forall_forall. intros m Hm%elem_of_elements.
        rewrite (Hsame m Hm). by eapply q_spec_single.
    + intros m Hm. rewrite (Hsame m Hm). exists (list_to_set regs).
      split; [done|]. rewrite Hregs. intros Hempty.
      assert (r0 ∈ (list_to_set (r0 :: regs') : gset register)) as Hin.
      { apply elem_of_list_to_set. left. }
      rewrite Hempty in Hin. by apply not_elem_of_empty in Hin.
Qed.

End tables.

(** *** Properties of the move sets that every step keeps *)

Section stable.
Variable arch : architecture.
Variable prog : program.

(** [I h st] is a property of the move sets and the instruction list of
    [st] and of the move [h] that the running step holds; it is kept when
    the move sets and the instruction list stay as they are, when [EnableMoves] takes a move from [activeMoves] to
    [worklistMoves], when a step takes a move out of [worklistMoves] or
    [activeMoves], and when it puts the move it holds into a set. *)
Variable I : gset instr → state → Prop.
Hypothesis I_frame : ∀ h st st',
  move_sets st' = move_sets st → instructions st' = instructions st →
  I h st → I h st'.
Hypothesis I_enable : ∀ h m st,
  I h st → m ∈ activeMoves st →
  I h (set_worklistMoves (λ s, s ∪ {[m]}) (set_activeMoves (λ s, s ∖ {[m]}) st)).
Hypothesis I_take_worklist : ∀ m st,
  I ∅ st → m ∈ worklistMoves st →
  I {[m]} (set_worklistMoves (λ s, s ∖ {[m]}) st).
Hypothesis I_take_active : ∀ m st,
  I ∅ st → m ∈ activeMoves st →
  I {[m]} (set_activeMoves (λ s, s ∖ {[m]}) st).
Hypothesis I_put_coalesced : ∀ m st,
  I {[m]} st → I ∅ (set_coalescedMoves (λ s, s ∪ {[m]}) st).
Hypothesis I_put_constrained : ∀ m st,
  I {[m]} st → I ∅ (set_constrainedMoves (λ s, s ∪ {[m]}) st).
Hypothesis I_put_frozen : ∀ m st,
  I {[m]} st → I ∅ (set_frozenMoves (λ s, s ∪ {[m]}) st).
Hypothesis I_put_active : ∀ m st,
  I {[m]} st → I ∅ (set_activeMoves (λ s, s ∪ {[m]}) st).

(** The move sets and the instructions are as in a state for which [I] is
    known. *)
Ltac framed :=
  first [ assumption
        | eapply I_frame; [| |eassumption]; reflexivity ].

Lemma EnableMoves_stable h ns st :
  I h st → wp (EnableMoves ns) (λ _, I h) st.
Proof.
  intros Hinv. unfold EnableMoves.
  apply wp_for; [|done]. clear st Hinv. intros n st _ Hinv.
  wp_steps. apply wp_for; [|done]. clear Hinv. intros m st' _ Hinv.
  wp_steps; [by apply I_enable|done].
Qed.

Lemma decrement_degree_stable h m st :
  I h st → wp (decrement_degree arch m) (λ _, I h) st.
Proof.
  intros Hinv. unfold decrement_degree.
  wp_steps; try done.
  all: eapply wp_mono; [by apply EnableMoves_stable|]; intros [] st' Hinv'.
  all: wp_steps; framed.
Qed.

Lemma for_decrement_degree_stable h l st :
  I h st → wp (for_ l (decrement_degree arch)) (λ _, I h) st.
Proof.
  intros Hinv. apply wp_for; [|done].
  intros m st' _. apply decrement_degree_stable.
Qed.

Lemma simplify_stable h st : I h st → wp (simplify arch) (λ _, I h) st.
Proof.
  intros Hinv. unfold simplify. wp_steps.
  apply for_decrement_degree_stable. framed.
Qed.

Lemma add_worklist_stable h u st :
  I h st → wp (add_worklist arch u) (λ _, I h) st.
Proof. intros Hinv. unfold add_worklist. wp_steps; framed. Qed.

Lemma combine_stable h u v st :
  I h st → wp (combine arch u v) (λ _, I h) st.
Proof.
  intros Hinv. unfold combine. wp_steps.
  all: eapply wp_mono; [apply for_decrement_degree_stable; framed|].
  all: intros [] st' Hinv'; wp_steps; framed.
Qed.

Lemma coalesc_stable st : I ∅ st → wp (coalesc arch prog) (λ _, I ∅) st.
Proof.
  intros Hinv. unfold coalesc. wp_steps.
  all: match goal with
       | H : set_pop _ = Some _ |- _ => apply set_pop_Some in H as [Hin ->]
       end.
  all: pose proof (I_take_worklist _ _ Hinv Hin) as Hinv1.
  all: try (apply add_worklist_stable; by apply I_put_coalesced).
  all: try (by apply I_put_active).
  all: try (eapply wp_mono;
            [apply add_worklist_stable; by apply I_put_constrained|];
            intros [] st' Hinv'; by apply add_worklist_stable).
  all: eapply wp_mono; [apply combine_stable; by apply I_put_coalesced|].
  all: intros [] st' Hinv'; by apply add_worklist_stable.
Qed.

Lemma freeze_stable st : I ∅ st → wp (freeze arch prog) (λ _, I ∅) st.
Proof.
  intros Hinv. unfold freeze. wp_steps.
  apply wp_for; [|framed]. clear Hinv. intros m st' _ Hinv.
  wp_steps; try done.
  all: try (by apply I_put_frozen, I_take_active).
  all: try (by apply I_put_frozen, I_take_worklist).
  all: try (eapply I_frame;
            [| |by apply I_put_frozen, I_take_active]; reflexivity).
  all: try (eapply I_frame;
            [| |by apply I_put_frozen, I_take_worklist]; reflexivity).
Qed.

Lemma loop_body_select st :
  loop_body arch prog st =
  match select_step st with
  | Simplify => (simplify arch ;; mret true) st
  | Coalesce => (coalesc arch prog ;; mret true) st
  | Freeze => (freeze arch prog ;; mret true) st
  | Spill => Raise NotImplementedError
  | Break => Ok (false, st)
  end.
Proof.
  unfold loop_body, mbind, M_bind, get. by destruct (select_step st).
Qed.

Lemma loop_body_stable st :
  select_step st ≠ Spill →
  I ∅ st → wp (loop_body arch prog) (λ _, I ∅) st.
Proof.
  intros Hsel Hinv. unfold loop_body. wp_steps; try done.
  - eapply wp_mono; [by apply simplify_stable|]. by intros [].
  - eapply wp_mono; [by apply coalesc_stable|]. by intros [].
  - eapply wp_mono; [by apply freeze_stable|]. by intros [].
Qed.

End stable.

(** *** The main loop *)

Section loop.
Variable arch : architecture.
Variable prog : program.
Variable interference : list instr → igraph.

Lemma loop_inv_frame ins h st st' :
  move_sets st' = move_sets st → instructions st' = instructions st →
  loop_inv prog ins h st → loop_inv prog ins h st'.
Proof. unfold loop_inv, moves_inv. by intros -> ->. Qed.

Lemma for_add_worklistMoves l st :
  for_ l add_worklistMoves st
  = Ok (tt, set_worklistMoves (λ s, s ∪ list_to_set l) st).
Proof.
  revert st. induction l as [|m l IH]; intros st; simpl.
  - unfold mret, M_ret. do 2 f_equal. destruct st; simpl.
    unfold set_worklistMoves; simpl. f_equal. by rewrite (right_id_L ∅ (∪)).
  - unfold mbind, M_bind, add_worklistMoves, modify. rewrite IH.
    do 2 f_equal. unfold set_worklistMoves; simpl. f_equal.
    by rewrite (assoc_L (∪)).
Qed.

Lemma prepare_wp e :
  wp (prepare arch prog interference)
    (λ _ st,
       move_sets st
       = [∅; ∅; ∅; ∅;
          list_to_set (filter (λ i, ismove prog i = true) (instructions e))] ∧
       instructions st = instructions e) e.
Proof.
  set (all := list_to_set (filter (λ i, ismove prog i = true) (instructions e))
        : gset instr).
  unfold prepare, init_data, build, makeWorkList.
  wp_steps.
  eapply wp_mono.
  { apply (wp_for (λ st, move_sets st = [∅; ∅; ∅; ∅; ∅] ∧
       moves st = filter (λ i, ismove prog i = true) (instructions e) ∧
       instructions st = instructions e)); [|done].
    intros mv st' _ Hst'. wp_steps. done. }
  intros [] st1 (Hst1 & Hmv & Hins). wp_steps.
  unfold wp. rewrite for_add_worklistMoves.
  wp_steps.
  eapply wp_mono.
  { apply (wp_for (λ st, move_sets st = [∅; ∅; ∅; ∅; all] ∧
                         instructions st = instructions e)).
    - intros n st' _ Hst'. wp_steps; done.
    - split; [|done]. unfold move_sets in *. simpl in *.
      injection Hst1 as H1 H2 H3 H4 H5.
      by rewrite H1, H2, H3, H4, H5, Hmv, (left_id_L ∅ (∪)). }
  by intros [].
Qed.

Lemma prepare_loop_inv e st0 :
  prepare arch prog interference e = Ok (tt, st0) →
  loop_inv prog (instructions e) ∅ st0.
Proof.
  intros Hrun.
  destruct (wp_Ok _ _ _ _ _ (prepare_wp e) Hrun) as [Hsets Hins].
  split; [|done]. intros x. rewrite Hsets. unfold occurrences. simpl.
  rewrite !occ_empty. lia.
Qed.

(** A round that is not the spill round does not raise the spill error. *)
Lemma loop_body_no_spill_error st :
  select_step st ≠ Spill → loop_body arch prog st ≠ Raise NotImplementedError.
Proof.
  intros Hsel. eapply wp_Raise.
  by apply (loop_body_stable arch prog (λ _ _, True)).
Qed.

Lemma loop_body_loop_inv ins st b st' :
  loop_body arch prog st = Ok (b, st') →
  loop_inv prog ins ∅ st → loop_inv prog ins ∅ st'.
Proof.
  intros Hrun Hinv.
  assert (select_step st ≠ Spill) as Hsel.
  { intros Hs. by rewrite loop_body_select, Hs in Hrun. }
  refine (wp_Ok _ (λ _, loop_inv prog ins ∅) _ _ _ _ Hrun).
  apply (loop_body_stable arch prog (loop_inv prog ins));
    [apply loop_inv_frame|..|done|done].
  all: unfold loop_inv; intros; destruct_and!; split; try done.
  all: eauto using inv_enable, inv_take_worklist, inv_take_active,
         inv_put_coalesced, inv_put_constrained, inv_put_frozen,
         inv_put_active.
Qed.

Lemma rounds_S k st :
  rounds arch prog (S k) st =
  match loop_body arch prog st with
  | Ok (_, st') => rounds arch prog k st'
  | Raise e => Raise e
  | OutOfFuel => OutOfFuel
  end.
Proof.
  unfold rounds. simpl. unfold mbind, M_bind, mret, M_ret.
  by destruct (loop_body arch prog st) as [[b st']| |].
Qed.

Lemma rounds_loop_inv ins k st st' :
  rounds arch prog k st = Ok (tt, st') →
  loop_inv prog ins ∅ st → loop_inv prog ins ∅ st'.
Proof.
  revert st. induction k as [|k IH]; intros st Hrun Hinv.
  - by injection Hrun as <-.
  - rewrite rounds_S in Hrun.
    destruct (loop_body arch prog st) as [[b st1]| |] eqn:Hbody; [|done..].
    eapply IH; [done|]. by eapply loop_body_loop_inv.
Qed.

Lemma main_loop_S fuel st :
  main_loop arch prog (S fuel) st =
  match loop_body arch prog st with
  | Ok (true, st') => main_loop arch prog fuel st'
  | Ok (false, st') => Ok (tt, st')
  | Raise e => Raise e
  | OutOfFuel => OutOfFuel
  end.
Proof.
  simpl. unfold mbind, M_bind, mret, M_ret.
  by destruct (loop_body arch prog st) as [[[] st']| |].
Qed.

Lemma loop_body_Break st b st' :
  loop_body arch prog st = Ok (b, st') →
  (b = false ↔ select_step st = Break) ∧ (b = false → st' = st).
Proof.
  rewrite loop_body_select. unfold mbind, M_bind, mret, M_ret.
  destruct (select_step st); repeat case_match;
    intros ?; simplify_eq; split; (split; [done|]) || done; done.
Qed.

Lemma rounds_Break k st :
  select_step st = Break → rounds arch prog k st = Ok (tt, st).
Proof.
  intros Hsel. induction k as [|k IH]; [done|].
  by rewrite rounds_S, loop_body_select, Hsel.
Qed.

(** A run of the main loop that returns has made some rounds and stopped at
    the [break]. *)
Lemma main_loop_Ok fuel st st' :
  main_loop arch prog fuel st = Ok (tt, st') →
  select_step st' = Break ∧ ∃ k, k < fuel ∧ rounds arch prog k st = Ok (tt, st').
Proof.
  revert st. induction fuel as [|fuel IH]; intros st Hrun; [done|].
  rewrite main_loop_S in Hrun.
  destruct (loop_body arch prog st) as [[[] st1]| |] eqn:Hbody; [| |done..].
  - destruct (IH _ Hrun) as (Hsel & k & Hk & Hrounds). split; [done|].
    exists (S k). split; [lia|]. by rewrite rounds_S, Hbody.
  - injection Hrun as <-.
    destruct (loop_body_Break _ _ _ Hbody) as [Hb Hst]. rewrite Hst by done.
    split; [by apply Hb|]. exists 0. split; [lia|done].
Qed.

(** The main loop raises the spill error exactly when some round finds the
    spill step selected. *)
Lemma main_loop_Raise fuel st :
  main_loop arch prog fuel st = Raise NotImplementedError ↔
  ∃ k st1, k < fuel ∧ rounds arch prog k st = Ok (tt, st1) ∧
           select_step st1 = Spill.
Proof.
  split.
  - revert st. induction fuel as [|fuel IH]; intros st Hrun; [done|].
    rewrite main_loop_S in Hrun.
    destruct (loop_body arch prog st) as [[[] st1]|e|] eqn:Hbody; [|done| |done].
    + destruct (IH _ Hrun) as (k & st2 & Hk & Hrounds & Hsel).
      exists (S k), st2. split; [lia|]. by rewrite rounds_S, Hbody.
    + injection Hrun as ->. exists 0, st. split; [lia|]. split; [done|].
      destruct (decide (select_step st = Spill)) as [|Hne]; [done|].
      by destruct (loop_body_no_spill_error _ Hne).
  - intros (k & st1 & Hk & Hrounds & Hsel).
    revert fuel st Hk Hrounds.
    induction k as [|k IH]; intros fuel st Hk Hrounds.
    + injection Hrounds as ->. destruct fuel as [|fuel]; [lia|].
      by rewrite main_loop_S, loop_body_select, Hsel.
    + destruct fuel as [|fuel]; [lia|].
      rewrite rounds_S in Hrounds. rewrite main_loop_S.
      destruct (loop_body arch prog st) as [[b st2]| |] eqn:Hbody; [|done..].
      destruct b; [apply IH; [lia|done]|].
      destruct (loop_body_Break _ _ _ Hbody) as [Hb Hst].
      rewrite Hst in Hrounds by done.
      rewrite rounds_Break in Hrounds by by apply Hb.
      injection Hrounds as <-. rewrite (proj1 Hb) in Hsel; done.
Qed.

Lemma moves_inv_disjoint all st :
  moves_inv all ∅ st → pairwise_disjoint (move_sets st).
Proof.
  intros H. unfold move_sets. simpl.
  repeat first [split | apply Forall_cons | apply Forall_nil].
  all: intros x HA HB; specialize (H x).
  all: unfold occurrences, move_sets in H; simpl in H.
  all: rewrite (occ_1 _ _ HA), (occ_1 _ _ HB) in H.
  all: pose proof (occ_le x all) as Hle.
  all: lia.
Qed.

Lemma moves_inv_exactly_one all st m :
  moves_inv all ∅ st → m ∈ all → in_exactly_one m st.
Proof.
  intros H Hm. specialize (H m). unfold in_exactly_one.
  unfold occurrences, move_sets in *. simpl in *.
  rewrite occ_empty, (occ_1 _ _ Hm) in H. lia.
Qed.

Lemma bind_Ok {A B} (m : M A) (k : A → M B) st b st' :
  (m ≫= k) st = Ok (b, st') ↔ ∃ a st1, m st = Ok (a, st1) ∧ k a st1 = Ok (b, st').
Proof.
  unfold mbind, M_bind. destruct (m st) as [[a st1]| |].
  - split; [by exists a, st1|]. by intros (? & ? & [= <- <-] & ?).
  - split; [done|]. by intros (? & ? & ? & ?).
  - split; [done|]. by intros (? & ? & ? & ?).
Qed.

(** C4: at the head of every round of the main loop the five move sets are
    pairwise disjoint, and when the loop ends every move instruction of the
    frame lies in exactly one of them. *)
Theorem move_sets_partition e st :
  ((∃ k, (prepare arch prog interference ;; rounds arch prog k) e = Ok (tt, st)) →
   pairwise_disjoint (move_sets st)) ∧
  ((∃ fuel,
      (prepare arch prog interference ;; main_loop arch prog fuel) e
      = Ok (tt, st)) →
   pairwise_disjoint (move_sets st) ∧
   ∀ m, m ∈ instructions e → ismove prog m = true → in_exactly_one m st).
Proof.
  split.
  - intros (k & ([] & st0 & Hprep & Hrounds)%bind_Ok).
    eapply moves_inv_disjoint, rounds_loop_inv; [done|].
    by apply prepare_loop_inv.
  - intros (fuel & ([] & st0 & Hprep & Hloop)%bind_Ok).
    apply main_loop_Ok in Hloop as (_ & k & _ & Hrounds).
    pose proof (rounds_loop_inv _ _ _ _ Hrounds (prepare_loop_inv _ _ Hprep))
      as [Hinv _].
    split; [by eapply moves_inv_disjoint|].
    intros m Hm Hmove. eapply moves_inv_exactly_one; [done|].
    apply elem_of_list_to_set, list_elem_of_filter. done.
Qed.

Lemma alloc_frame_phases fuel e :
  alloc_frame arch prog interference fuel e
  = (prepare arch prog interference ;; main_loop arch prog fuel ;;
     finish arch) e.
Proof.
  unfold alloc_frame, prepare, finish, mbind, M_bind.
  destruct (init_data e) as [[[] s1]| |]; [|done..].
  destruct (build prog interference s1) as [[[] s2]| |]; [|done..].
  by destruct (makeWorkList arch s2) as [[[] s3]| |].
Qed.

End loop.

(** *** [assign_colors] *)

Lemma list_pop_snoc {A} (s : list A) n : list_pop (s ++ [n]) = Some (n, s).
Proof. induction s as [|x s IH]; simpl; [done|]. by rewrite IH. Qed.

Lemma list_pop_Some {A} (l s : list A) n :
  list_pop l = Some (n, s) → l = s ++ [n].
Proof.
  revert s. induction l as [|x l IH]; intros s; simpl; [done|].
  destruct (list_pop l) as [[y r]|] eqn:Hl.
  - intros [= -> <-]. by rewrite (IH r).
  - intros [= -> <-]. by destruct l as [|z l]; [|simpl in Hl; destruct (list_pop l) as [[]|]].
Qed.

Section colors.
Variable arch : architecture.

Lemma assign_color_stack st st' :
  assign_color arch st = Ok (tt, st') →
  ∃ n, select_stack st = select_stack st' ++ [n].
Proof.
  unfold assign_color, mbind, M_bind, pop_select_stack.
  destruct (list_pop (select_stack st)) as [[n s]|] eqn:Hpop; [|done].
  apply list_pop_Some in Hpop. simpl.
  unfold lift. destruct (or_raise _ _) as [R| |]; simpl; [|done..].
  destruct (elements _); simpl; [done|].
  intros [= <-]. by exists n.
Qed.

Lemma assign_colors_eq st :
  assign_colors arch st
  = repeat_ (length (select_stack st)) (assign_color arch) st.
Proof. done. Qed.

Lemma assign_colors_unfold st s n :
  select_stack st = s ++ [n] →
  assign_colors arch st = (assign_color arch ;; assign_colors arch) st.
Proof.
  intros Hst. rewrite assign_colors_eq, Hst, length_app, Nat.add_comm. simpl.
  unfold mbind, M_bind.
  destruct (assign_color arch st) as [[[] st1]| |] eqn:Hone; [|done..].
  apply assign_color_stack in Hone as (n' & Hst1).
  rewrite Hst in Hst1. apply app_inj_tail in Hst1 as [-> _].
  by rewrite assign_colors_eq.
Qed.

Lemma elem_of_takenregs g n reg :
  reg ∈ takenregs arch g n ↔
  ∃ m, m ∈ adjecent g n ∧ reg ∈ alias_of arch (color (node_of g m)).
Proof.
  unfold takenregs. rewrite elem_of_union_list. split.
  - intros (X & (m & -> & Hm)%list_elem_of_fmap & Hreg).
    exists m. by rewrite <-elem_of_elements.
  - intros (m & Hm & Hreg). eexists. split; [|done].
    apply list_elem_of_fmap. exists m. by rewrite elem_of_elements.
Qed.

Lemma assign_color_safe st : wp (assign_color arch) (λ _ _, True) st.
Proof. unfold assign_color. wp_steps; done. Qed.

Lemma assign_colors_safe st :
  assign_colors arch st ≠ Raise NotImplementedError.
Proof.
  rewrite assign_colors_eq. eapply wp_Raise.
  apply (wp_repeat (λ _, True)); [|done]. intros st' _. apply assign_color_safe.
Qed.

Lemma assign_colors_empties st st' :
  assign_colors arch st = Ok (tt, st') → select_stack st' = [].
Proof.
  rewrite assign_colors_eq.
  remember (length (select_stack st)) as k eqn:Hk.
  revert st Hk. induction k as [|k IH]; intros st Hk; simpl.
  - intros [= <-]. by destruct (select_stack st).
  - unfold mbind, M_bind.
    destruct (assign_color arch st) as [[[] st1]| |] eqn:Hone; [|done..].
    apply assign_color_stack in Hone as (n & Hst1). apply IH.
    rewrite Hst1, length_app in Hk. simpl in Hk. lia.
Qed.

(** C5, as the code has it: [assign_colors] pops the select stack from its
    top; for the popped node it unmasks the node, takes for [takenregs] the
    aliases of the colours of the nodes adjacent to it, and gives the node a
    register of its class that is not in [takenregs]; when there is none it
    fails with an assertion error, and it never raises the error of the
    unimplemented spill; when it returns, the stack is empty. *)
Theorem assign_colors_lifo st s n R :
  select_stack st = s ++ [n] →
  cls_regs (self arch) !! reg_class (node_of (unmask_node (ig st) n) n)
  = Some R →
  let g := unmask_node (ig st) n in
  assign_colors arch st = (assign_color arch ;; assign_colors arch) st ∧
  (∀ reg, reg ∈ takenregs arch g n ↔
     ∃ m, m ∈ adjecent g n ∧ reg ∈ alias_of arch (color (node_of g m))) ∧
  (R ∖ takenregs arch g n ≠ ∅ →
     ∃ reg, reg ∈ R ∖ takenregs arch g n ∧
       assign_color arch st
       = Ok (tt, set_ig (λ g, set_node g n (upd_color (λ _, Some reg)))
                   (set_ig (λ g, unmask_node g n)
                      (set_select_stack (λ _, s) st)))) ∧
  (R ∖ takenregs arch g n = ∅ →
     assign_color arch st = Raise AssertionError ∧
     assign_colors arch st = Raise AssertionError) ∧
  assign_colors arch st ≠ Raise NotImplementedError ∧
  (∀ st', assign_colors arch st = Ok (tt, st') → select_stack st' = []).
Proof.
  intros Hst HR g.
  pose proof (assign_colors_unfold st s n Hst) as Hunfold.
  split; [done|]. split; [apply elem_of_takenregs|].
  assert (assign_color arch st =
    match elements (R ∖ takenregs arch g n) with
    | [] => Raise AssertionError
    | reg :: _ =>
        Ok (tt, set_ig (λ g, set_node g n (upd_color (λ _, Some reg)))
                  (set_ig (λ g, unmask_node g n)
                     (set_select_stack (λ _, s) st)))
    end) as Hone.
  { unfold assign_color, mbind, M_bind, pop_select_stack.
    rewrite Hst, list_pop_snoc. unfold modify, get. cbv beta iota.
    cbn [ig set_ig set_select_stack]. rewrite HR. simpl.
    by destruct (elements _). }
  split; [|split; [|split; [apply assign_colors_safe|apply assign_colors_empties]]].
  - intros Hne. destruct (elements (R ∖ takenregs arch g n)) as [|reg l] eqn:Hel.
    { by apply elements_empty_inv, leibniz_equiv in Hel. }
    exists reg. split; [|done]. apply elem_of_elements. rewrite Hel. left.
  - intros Hempty. rewrite Hempty, elements_empty in Hone. split; [done|].
    rewrite Hunfold. unfold mbind, M_bind. by rewrite Hone.
Qed.

End colors.

(** *** [remove_redundant_moves] and [apply_colors] *)

Lemma list_remove_None `{EqDecision A} (x : A) (l : list A) :
  list_remove x l = None ↔ x ∉ l.
Proof.
  induction l as [|y l IH]; simpl.
  - split; [intros _; apply not_elem_of_nil|done].
  - rewrite not_elem_of_cons. case_decide as Hxy.
    + split; [done|]. by intros [? _].
    + destruct (list_remove x l); simpl.
      * split; [done|]. intros [_ Hl]. by apply IH in Hl.
      * split; [|done]. intros _. split; [done|]. by apply IH.
Qed.

Lemma filter_all {A} (P : A → Prop) `{∀ x, Decision (P x)} (l : list A) :
  (∀ x, x ∈ l → P x) → filter P l = l.
Proof.
  induction l as [|y l IH]; intros HP; [done|].
  rewrite filter_cons_True by (apply HP; left).
  rewrite IH; [done|]. intros x Hx. apply HP. by right.
Qed.

Lemma list_remove_NoDup `{EqDecision A} (x : A) (l l' : list A) :
  NoDup l → list_remove x l = Some l' → l' = filter (λ y, y ≠ x) l.
Proof.
  intros Hnd. revert l'.
  induction Hnd as [|y l Hy Hnd IH]; intros l'; simpl; [done|].
  case_decide as Hxy.
  - intros [= <-]. subst y. rewrite filter_cons_False by (by intros ?).
    symmetry. apply filter_all. by intros y Hy' ->.
  - destruct (list_remove x l) as [r|]; simpl; [|done].
    intros [= <-]. rewrite filter_cons_True by done. by rewrite (IH r).
Qed.

Lemma for_remove_instruction (l : list instr) st :
  NoDup (instructions st) → NoDup l → (∀ x, x ∈ l → x ∈ instructions st) →
  for_ l remove_instruction st
  = Ok (tt, set_instructions (λ ins, filter (λ i, i ∉ l) ins) st).
Proof.
  revert st. induction l as [|x l IH]; intros st Hnd Hl Hsub; simpl.
  - unfold mret, M_ret. do 2 f_equal. destruct st. unfold set_instructions.
    simpl. f_equal. symmetry. apply filter_all. intros x _. apply not_elem_of_nil.
  - apply NoDup_cons in Hl as [Hx Hl].
    unfold mbind, M_bind, remove_instruction.
    destruct (list_remove x (instructions st)) as [r|] eqn:Hr.
    2: { apply list_remove_None in Hr. destruct Hr. apply Hsub. left. }
    apply list_remove_NoDup in Hr; [|done]. subst r. rewrite IH; simpl.
    + do 2 f_equal. unfold set_instructions. simpl. f_equal.
      rewrite list_filter_filter. apply list_filter_iff. intros i.
      rewrite not_elem_of_cons. tauto.
    + by apply NoDup_filter.
    + done.
    + intros y Hy. apply list_elem_of_filter. split; [by intros ->|].
      apply Hsub. by right.
Qed.

Lemma remove_redundant_moves_spec st :
  NoDup (instructions st) →
  (∀ m, m ∈ coalescedMoves st → m ∈ instructions st) →
  remove_redundant_moves st
  = Ok (tt, set_instructions
              (λ ins, filter (λ i, i ∉ coalescedMoves st) ins) st).
Proof.
  intros Hnd Hsub. unfold remove_redundant_moves, mbind, M_bind, get.
  rewrite for_remove_instruction; [|done|apply NoDup_elements|].
  - do 2 f_equal. unfold set_instructions. f_equal.
    apply list_filter_iff. intros i. by rewrite elem_of_elements.
  - intros x Hx. apply Hsub. by apply elem_of_elements.
Qed.

(** A loop whose rounds are related by a preorder [R] and each establish a
    property [P] of their element that [R] keeps. *)
Lemma wp_for_rel {A} (R : state → state → Prop) (P : A → state → Prop)
    (l : list A) body st :
  (∀ s, R s s) → (∀ a b c, R a b → R b c → R a c) →
  (∀ x a b, P x a → R a b → P x b) →
  (∀ x s, x ∈ l → R st s → wp (body x) (λ _ s', R s s' ∧ P x s') s) →
  wp (for_ l body) (λ _ s', R st s' ∧ ∀ x, x ∈ l → P x s') st.
Proof.
  intros Hrefl Htrans Hkeep Hbody.
  cut (∀ s0, R st s0 →
         wp (for_ l body) (λ _ s', R s0 s' ∧ ∀ x, x ∈ l → P x s') s0).
  { intros Hcut. by apply Hcut. }
  induction l as [|x l IH]; intros s0 Hs0; simpl.
  - split; [done|]. intros x Hx. by apply elem_of_nil in Hx.
  - apply wp_bind. eapply wp_mono; [apply Hbody; [left|done]|].
    intros [] s1 [H01 HP]. eapply wp_mono.
    + apply IH; [|by eapply Htrans].
      intros y s Hy. apply Hbody. by right.
    + intros [] s2 [H12 HPs]. split; [by eapply Htrans|].
      intros y [->|Hy]%elem_of_cons; [by eapply Hkeep|by apply HPs].
Qed.

Lemma apply_colors_spec st :
  nodes_colored st →
  wp apply_colors
    (λ _ st',
       colors_kept st st' ∧
       ∀ n, n ∈ nodes (ig st) →
         ∀ reg, reg ∈ temps (node_of (ig st) n) →
           ∃ c, color (node_of (ig st) n) = Some c ∧
                is_Some (reg_color st' !! reg) ∧
                reg_color st' !! reg = reg_color st !! c) st.
Proof.
  intros Hphys. unfold apply_colors. wp_steps.
  assert (∀ s, colors_kept s s) as Hrefl by (by intros s; repeat split).
  assert (∀ a b c, colors_kept a b → colors_kept b c → colors_kept a c)
    as Htrans.
  { intros a b c (Hg1 & Hi1 & Hm1 & Hc1) (Hg2 & Hi2 & Hm2 & Hc2).
    split; [congruence|]. split; [congruence|]. split; [congruence|]. auto. }
  set (P := λ (n : node) (reg : register) (s : state),
    ∃ c z, color (node_of (ig st) n) = Some c ∧
           reg_color st !! c = Some z ∧ reg_color s !! reg = Some z).
  assert (∀ n reg a b, P n reg a → colors_kept a b → P n reg b) as Hkeep.
  { intros n reg a b (c & z & Hc & Hz & Hreg) (_ & _ & _ & Hab).
    exists c, z. auto. }
  eapply wp_mono.
  { apply (wp_for_rel colors_kept (λ n s, ∀ reg,
      reg ∈ temps (node_of (ig st) n) → P n reg s)); [done|done| |].
    { intros n a b HP Hab reg Hreg. eapply Hkeep; eauto. }
    intros n s Hn Hs. apply elem_of_elements in Hn. wp_steps.
    eapply wp_mono.
    { apply (wp_for_rel colors_kept (P n)); [done|done|by apply Hkeep|].
      intros reg s' Hreg Hs'. wp_steps.
      all: pose proof (Htrans _ _ _ Hs Hs') as (Hg & Hi & Hm & Hcol).
      all: destruct (Hphys n Hn) as (cn & zn & Hcn & Hzn).
      all: pose proof (Hcol _ _ Hzn) as Hzn'.
      all: rewrite Hg, Hcn in *; simplify_eq.
      - split; [done|]. eexists _, zn. split; [done|]. split; [done|].
        congruence.
      - rewrite Hzn'. simpl. split.
        + split; [done|]. split; [done|]. split; [done|].
          intros r z' Hr. simpl.
          rewrite lookup_insert_ne; [done|]. intros ->. congruence.
        + eexists _, zn. simpl. by rewrite lookup_insert_eq. }
    intros [] s' [Hs' HP]. split; [done|].
    intros reg Hreg. apply HP. apply elem_of_elements.
    destruct Hs as (Hg & _). by rewrite Hg. }
  intros [] st' [Hst' HP]. split; [done|].
  intros n Hn reg Hreg.
  destruct (HP n) with reg as (c & z & Hc & Hz & Hreg');
    [by apply elem_of_elements|done|].
  exists c. rewrite Hreg', Hz. eauto.
Qed.

Section finish.
Variable arch : architecture.
Variable prog : program.
Variable interference : list instr → igraph.

Lemma moves_inv_coalesced all st m :
  moves_inv all ∅ st → m ∈ coalescedMoves st → m ∈ all.
Proof.
  intros H Hm. specialize (H m). unfold occurrences, move_sets in H.
  simpl in H. rewrite (occ_1 _ _ Hm) in H.
  destruct (decide (m ∈ all)) as [|Hn]; [done|].
  assert (occ m all = 0) as H0 by (unfold occ; by rewrite decide_False).
  lia.
Qed.

Lemma assign_colors_frame st :
  wp (assign_colors arch)
    (λ _ st', instructions st' = instructions st ∧
              coalescedMoves st' = coalescedMoves st) st.
Proof.
  unfold assign_colors. wp_steps.
  apply (wp_repeat (λ st', instructions st' = instructions st ∧
                           coalescedMoves st' = coalescedMoves st)); [|done].
  intros st' Hst'. unfold assign_color. wp_steps; done.
Qed.

Lemma apply_colors_frame st :
  wp apply_colors
    (λ _ st', instructions st' = instructions st ∧
              coalescedMoves st' = coalescedMoves st) st.
Proof.
  unfold apply_colors. wp_steps.
  apply (wp_for (λ st', instructions st' = instructions st ∧
                        coalescedMoves st' = coalescedMoves st)); [|done].
  intros n st1 _ Hst1. wp_steps.
  apply (wp_for (λ st', instructions st' = instructions st ∧
                        coalescedMoves st' = coalescedMoves st)); [|done].
  intros reg st2 _ Hst2. wp_steps; done.
Qed.

(** C6: when [alloc_frame] returns, for a frame whose instruction list
    holds no instruction twice, the instruction list is the one on entry
    without the coalesced moves, in the same order; [apply_colors], run
    when every node has a physical register for colour, gives every
    register of every node the colour of the node's register, and leaves
    the registers that had a colour with it; it does not return when a
    register that had a colour belongs to a node of another colour. *)
Theorem coalesced_moves_removed_colors_applied :
  (∀ fuel e st',
     NoDup (instructions e) →
     alloc_frame arch prog interference fuel e = Ok (tt, st') →
     instructions st'
     = filter (λ i, i ∉ coalescedMoves st') (instructions e) ∧
     ∀ i, i ∈ instructions st' ↔ i ∈ instructions e ∧ i ∉ coalescedMoves st') ∧
  (∀ st st',
     nodes_colored st →
     apply_colors st = Ok (tt, st') →
     (∀ n reg, n ∈ nodes (ig st) → reg ∈ temps (node_of (ig st) n) →
        ∃ c, color (node_of (ig st) n) = Some c ∧
             is_Some (reg_color st' !! reg) ∧
             reg_color st' !! reg = reg_color st !! c) ∧
     (∀ r z, reg_color st !! r = Some z → reg_color st' !! r = Some z)) ∧
  (∀ st n reg c z z',
     nodes_colored st →
     n ∈ nodes (ig st) → reg ∈ temps (node_of (ig st) n) →
     color (node_of (ig st) n) = Some c → reg_color st !! c = Some z →
     reg_color st !! reg = Some z' → z ≠ z' →
     ∀ st', apply_colors st ≠ Ok (tt, st')).
Proof.
  assert (∀ st st',
     nodes_colored st →
     apply_colors st = Ok (tt, st') →
     (∀ n reg, n ∈ nodes (ig st) → reg ∈ temps (node_of (ig st) n) →
        ∃ c, color (node_of (ig st) n) = Some c ∧
             is_Some (reg_color st' !! reg) ∧
             reg_color st' !! reg = reg_color st !! c) ∧
     (∀ r z, reg_color st !! r = Some z → reg_color st' !! r = Some z))
    as Hcolors; [|split; [|split; [exact Hcolors|]]].
  - intros st st' Hcol Hrun.
    destruct (wp_Ok _ _ _ _ _ (apply_colors_spec st Hcol) Hrun)
      as [(_ & _ & _ & Hkept) Hset]. split; [|done].
    intros n reg Hn Hreg. by apply Hset.
  - intros fuel e st' Hnd Hrun.
    cut (instructions st'
         = filter (λ i, i ∉ coalescedMoves st') (instructions e)).
    { intros Heq. split; [done|]. intros i. rewrite Heq at 1.
      by rewrite list_elem_of_filter, (comm (∧)). }
    rewrite alloc_frame_phases in Hrun.
    apply bind_Ok in Hrun as ([] & st0 & Hprep & Hrun).
    apply bind_Ok in Hrun as ([] & st1 & Hloop & Hrun).
    apply bind_Ok in Hrun as ([] & st2 & Hassign & Hrun).
    apply bind_Ok in Hrun as ([] & st3 & Hremove & Happly).
    apply main_loop_Ok in Hloop as (_ & k & _ & Hrounds).
    destruct (rounds_loop_inv _ _ _ _ _ _ Hrounds
                (prepare_loop_inv _ _ _ _ _ Hprep)) as [Hinv Hins1].
    destruct (wp_Ok _ _ _ _ _ (assign_colors_frame st1) Hassign)
      as [Hins2 Hco2].
    rewrite remove_redundant_moves_spec in Hremove.
    + injection Hremove as <-.
      destruct (wp_Ok _ _ _ _ _ (apply_colors_frame _) Happly)
        as [Hins3 Hco3]. simpl in *.
      by rewrite Hins3, Hco3, Hins2, Hins1.
    + congruence.
    + intros m Hm. rewrite Hco2 in Hm.
      eapply moves_inv_coalesced, elem_of_list_to_set, list_elem_of_filter
        in Hm as [_ Hm]; [|done]. congruence.
  - intros st n reg c z z' Hcol Hn Hreg Hc Hz Hz' Hne st' Hrun.
    destruct (Hcolors st st' Hcol Hrun) as [Hset Hkept].
    destruct (Hset n reg Hn Hreg) as (c' & Hc' & _ & Heq).
    rewrite (Hkept _ _ Hz') in Heq. congruence.
Qed.

End finish.

(** *** [coalesc] *)

Lemma all_r_true {A} (f : A → result bool) (l : list A) :
  all_r f l = Ok true ↔ ∀ x, x ∈ l → f x = Ok true.
Proof.
  induction l as [|x l IH]; simpl.
  - split; [|done]. intros _ x Hx. by apply elem_of_nil in Hx.
  - split.
    + destruct (f x) as [[]| |] eqn:Hfx; simpl; try done.
      intros Hl y [->|Hy]%elem_of_cons; [done|]. by apply IH.
    + intros Hall. rewrite (Hall x) by left. simpl. apply IH.
      intros y Hy. apply Hall. by right.
Qed.

Section coalesc.
Variable arch : architecture.
Variable prog : program.

Lemma coalesc_test_colored g u v :
  is_colored (node_of g u) = true →
  (coalesc_test arch g u v = Ok true ↔
   issubclass arch (reg_class (node_of g u)) (reg_class (node_of g v)) = true ∧
   ∀ t, t ∈ adjecent g v → ok arch g t u = Ok true) ∧
  (∀ b, coalesc_test arch g u v = Ok b → b = false ∨ b = true).
Proof.
  intros Hu. unfold coalesc_test, fits_class. rewrite Hu. simpl.
  split; [|intros []; auto].
  assert (all_r (λ t, ok arch g t u) (elements (adjecent g v)) = Ok true ↔
          ∀ t, t ∈ adjecent g v → ok arch g t u = Ok true) as Hall.
  { rewrite all_r_true. by setoid_rewrite elem_of_elements. }
  destruct (issubclass arch _ _); simpl; [|by split; [|intros [? _]]].
  rewrite <-Hall.
  destruct (all_r _ _) as [[]| |]; simpl; split; try done; by intros [_ ?].
Qed.

Lemma bind_eq {A B} (m : M A) (k : A → M B) s a s' :
  m s = Ok (a, s') → (m ≫= k) s = k a s'.
Proof. unfold mbind, M_bind. by intros ->. Qed.

Lemma defined0_Node m rd x s :
  head (defined_registers prog m) = Some rd → get_node (ig s) rd = Ok x →
  (r ← defined0 prog m; Node r) s = Ok (x, s).
Proof.
  intros Hrd Hx. unfold defined0, Node, mbind, M_bind, get, lift.
  rewrite Hrd. simpl. by rewrite Hx.
Qed.

Lemma used0_Node m ru y s :
  head (used_registers prog m) = Some ru → get_node (ig s) ru = Ok y →
  (r ← used0 prog m; Node r) s = Ok (y, s).
Proof.
  intros Hru Hy. unfold used0, Node, mbind, M_bind, get, lift.
  rewrite Hru. simpl. by rewrite Hy.
Qed.

(** What [coalesc] does once the first two tests have failed. *)
Lemma coalesc_third_case st m u v :
  coalesc_takes prog st m u v →
  u ≠ v → v ∉ precolored st → has_edge (ig st) u v = false →
  coalesc arch prog st =
  (c ← lift (coalesc_test arch (ig st) u v);
   if c : bool
   then add_coalescedMoves m ;; combine arch u v ;; add_worklist arch u
   else add_activeMoves m) (set_worklistMoves (λ s, s ∖ {[m]}) st).
Proof.
  intros (W & rd & ru & x & y & Hpop & Hrd & Hru & Hx & Hy & Huv) Hne Hv Hedge.
  destruct (set_pop_Some _ _ _ Hpop) as [Hm ->].
  unfold coalesc, mbind at 1, M_bind at 1, pop_worklistMoves. rewrite Hpop.
  erewrite bind_eq; [|by apply (defined0_Node m rd x)].
  erewrite bind_eq; [|by apply (used0_Node m ru y)].
  erewrite bind_eq; [|done].
  cbn [precolored ig set_worklistMoves]. rewrite <-Huv.
  rewrite decide_False by done.
  rewrite bool_decide_eq_false_2 by done. rewrite Hedge. done.
Qed.

(** C3, as the code has it: for a move whose oriented end points [u] and
    [v] are distinct, [v] not pre-coloured, no edge between them and [u]
    pre-coloured, [coalesc] adds the move to [coalescedMoves] and combines
    [u] and [v] exactly when the class of [u] is a subclass of the class of
    [v] ([fits_class(v.reg_class, u.reg_class)]) and every node [t]
    adjacent to [v] satisfies [ok(t, u)]; otherwise the move goes to
    [activeMoves] and nothing else changes. *)
Theorem coalesc_george st m u v :
  coalesc_takes prog st m u v →
  u ≠ v → v ∉ precolored st → has_edge (ig st) u v = false →
  is_colored (node_of (ig st) u) = true →
  let g := ig st in
  let st1 := set_worklistMoves (λ s, s ∖ {[m]}) st in
  let george :=
    issubclass arch (reg_class (node_of g u)) (reg_class (node_of g v)) = true ∧
    ∀ t, t ∈ adjecent g v → ok arch g t u = Ok true in
  (george →
     coalesc arch prog st
     = (add_coalescedMoves m ;; combine arch u v ;; add_worklist arch u) st1 ∧
     ∀ st', coalesc arch prog st = Ok (tt, st') → m ∈ coalescedMoves st') ∧
  (¬ george →
     ∀ st', coalesc arch prog st = Ok (tt, st') →
       st' = set_activeMoves (λ s, s ∪ {[m]}) st1).
Proof.
  intros Htakes Hne Hv Hedge Hu g st1 george.
  rewrite (coalesc_third_case st m u v) by done. fold st1 g.
  destruct (coalesc_test_colored g u v Hu) as [Htrue Hbool].
  split.
  - intros Hg. apply Htrue in Hg.
    assert ((c ← lift (coalesc_test arch g u v);
             if c : bool
             then add_coalescedMoves m ;; combine arch u v ;; add_worklist arch u
             else add_activeMoves m) st1
            = (add_coalescedMoves m ;; combine arch u v ;; add_worklist arch u) st1)
      as ->.
    { unfold mbind at 1, M_bind at 1, lift. by rewrite Hg. }
    split; [done|]. intros st' Hrun.
    refine (wp_Ok _ (λ _ st', m ∈ coalescedMoves st') _ _ _ _ Hrun).
    wp_steps. eapply wp_mono.
    { apply (combine_stable arch (λ _ st', m ∈ coalescedMoves st')) with (h := ∅).
      - by intros _ s s' [= -> _] _.
      - done.
      - simpl. apply elem_of_union_r, elem_of_singleton_2. done. }
    intros [] s Hs.
    apply (add_worklist_stable arch (λ _ st', m ∈ coalescedMoves st')) with (h := ∅);
      [|done].
    by intros _ s1 s2 [= -> _] _.
  - intros Hng st' Hrun.
    unfold mbind at 1, M_bind at 1, lift in Hrun.
    destruct (coalesc_test arch g u v) as [[]| |] eqn:Htest; try done.
    + destruct Hng. by apply Htrue.
    + by injection Hrun.
Qed.

End coalesc.

(** *** The order of the steps *)

Section priority.
Variable arch : architecture.
Variable prog : program.
Variable interference : list instr → igraph.

Lemma finish_no_spill_error st :
  finish arch st ≠ Raise NotImplementedError.
Proof.
  eapply (wp_Raise _ (λ _ _, True)). unfold finish.
  apply wp_bind. eapply wp_mono; [apply assign_colors_frame|].
  intros [] st1 _. apply wp_bind. eapply wp_mono.
  { unfold remove_redundant_moves. wp_steps.
    apply (wp_for (λ _, True)); [|done]. intros i s _ _. wp_steps. done. }
  intros [] st2 _. eapply wp_mono; [apply apply_colors_frame|]. done.
Qed.

Lemma select_step_cases st :
  (select_step st = Simplify ↔ simplifyWorklist st ≠ []) ∧
  (select_step st = Coalesce ↔
     simplifyWorklist st = [] ∧ worklistMoves st ≠ ∅) ∧
  (select_step st = Freeze ↔
     simplifyWorklist st = [] ∧ worklistMoves st = ∅ ∧
     freeze_worklist st ≠ []) ∧
  (select_step st = Spill ↔
     simplifyWorklist st = [] ∧ worklistMoves st = ∅ ∧
     freeze_worklist st = [] ∧ spillWorklist st ≠ []) ∧
  (select_step st = Break ↔
     simplifyWorklist st = [] ∧ worklistMoves st = ∅ ∧
     freeze_worklist st = [] ∧ spillWorklist st = []).
Proof.
  unfold select_step.
  destruct (decide (simplifyWorklist st = [])) as [H1|H1];
    [rewrite (bool_decide_eq_false_2 _ (λ H, H H1))
    |rewrite (bool_decide_eq_true_2 _ H1); intuition congruence].
  destruct (decide (worklistMoves st = ∅)) as [H2|H2];
    [rewrite (bool_decide_eq_false_2 _ (λ H, H H2))
    |rewrite (bool_decide_eq_true_2 _ H2); intuition congruence].
  destruct (decide (freeze_worklist st = [])) as [H3|H3];
    [rewrite (bool_decide_eq_false_2 _ (λ H, H H3))
    |rewrite (bool_decide_eq_true_2 _ H3); intuition congruence].
  destruct (decide (spillWorklist st = [])) as [H4|H4];
    [rewrite (bool_decide_eq_false_2 _ (λ H, H H4))
    |rewrite (bool_decide_eq_true_2 _ H4)]; intuition congruence.
Qed.

(** C1: the step of a round is chosen in strict priority; a round raises
    the spill error exactly when the simplify worklist, the worklist moves
    and the freeze worklist are empty and the spill worklist is not, and
    so does the loop; the loop ends only with all four empty; and
    [alloc_frame] then runs [assign_colors], [remove_redundant_moves] and
    [apply_colors] in that order. *)
Theorem main_loop_priority :
  (∀ st,
     loop_body arch prog st =
     match select_step st with
     | Simplify => (simplify arch ;; mret true) st
     | Coalesce => (coalesc arch prog ;; mret true) st
     | Freeze => (freeze arch prog ;; mret true) st
     | Spill => Raise NotImplementedError
     | Break => Ok (false, st)
     end) ∧
  (∀ st,
     (select_step st = Simplify ↔ simplifyWorklist st ≠ []) ∧
     (select_step st = Coalesce ↔
        simplifyWorklist st = [] ∧ worklistMoves st ≠ ∅) ∧
     (select_step st = Freeze ↔
        simplifyWorklist st = [] ∧ worklistMoves st = ∅ ∧
        freeze_worklist st ≠ [])) ∧
  (∀ st,
     loop_body arch prog st = Raise NotImplementedError ↔
     simplifyWorklist st = [] ∧ worklistMoves st = ∅ ∧
     freeze_worklist st = [] ∧ spillWorklist st ≠ []) ∧
  (∀ fuel st,
     main_loop arch prog fuel st = Raise NotImplementedError ↔
     ∃ k st1, k < fuel ∧ rounds arch prog k st = Ok (tt, st1) ∧
       simplifyWorklist st1 = [] ∧ worklistMoves st1 = ∅ ∧
       freeze_worklist st1 = [] ∧ spillWorklist st1 ≠ []) ∧
  (∀ fuel st st',
     main_loop arch prog fuel st = Ok (tt, st') →
     simplifyWorklist st' = [] ∧ worklistMoves st' = ∅ ∧
     freeze_worklist st' = [] ∧ spillWorklist st' = []) ∧
  (∀ fuel e st',
     alloc_frame arch prog interference fuel e = Ok (tt, st') ↔
     ∃ st0 st1 st2 st3,
       prepare arch prog interference e = Ok (tt, st0) ∧
       main_loop arch prog fuel st0 = Ok (tt, st1) ∧
       assign_colors arch st1 = Ok (tt, st2) ∧
       remove_redundant_moves st2 = Ok (tt, st3) ∧
       apply_colors st3 = Ok (tt, st')) ∧
  (∀ fuel e,
     alloc_frame arch prog interference fuel e = Raise NotImplementedError ↔
     ∃ st0 k st1,
       prepare arch prog interference e = Ok (tt, st0) ∧
       k < fuel ∧ rounds arch prog k st0 = Ok (tt, st1) ∧
       simplifyWorklist st1 = [] ∧ worklistMoves st1 = ∅ ∧
       freeze_worklist st1 = [] ∧ spillWorklist st1 ≠ []).
Proof.
  split; [apply loop_body_select|].
  split; [intros st; pose proof (select_step_cases st); tauto|].
  assert (∀ st, loop_body arch prog st = Raise NotImplementedError ↔
                select_step st = Spill) as Hspill.
  { intros st. split.
    - intros Hrun. destruct (decide (select_step st = Spill)); [done|].
      by destruct (loop_body_no_spill_error arch prog st).
    - intros Hsel. by rewrite loop_body_select, Hsel. }
  assert (∀ fuel st,
     main_loop arch prog fuel st = Raise NotImplementedError ↔
     ∃ k st1, k < fuel ∧ rounds arch prog k st = Ok (tt, st1) ∧
       simplifyWorklist st1 = [] ∧ worklistMoves st1 = ∅ ∧
       freeze_worklist st1 = [] ∧ spillWorklist st1 ≠ []) as Hraise.
  { intros fuel st. rewrite main_loop_Raise.
    split; intros (k & st1 & Hk & Hrounds & H); exists k, st1;
      (split; [done|]); (split; [done|]);
      pose proof (select_step_cases st1); tauto. }
  split; [|split; [done|split; [|split]]].
  - intros st. rewrite Hspill. pose proof (select_step_cases st). tauto.
  - intros fuel st st' (Hsel & _)%main_loop_Ok.
    pose proof (select_step_cases st'). tauto.
  - intros fuel e st'. rewrite alloc_frame_phases. unfold finish.
    rewrite bind_Ok. split.
    + intros ([] & st0 & Hprep & ([] & st1 & Hloop & H)%bind_Ok).
      apply bind_Ok in H as ([] & st2 & Hassign & H).
      apply bind_Ok in H as ([] & st3 & Hremove & H).
      by exists st0, st1, st2, st3.
    + intros (st0 & st1 & st2 & st3 & Hprep & Hloop & Hassign & Hremove & H).
      exists tt, st0. split; [done|]. apply bind_Ok. exists tt, st1.
      split; [done|]. apply bind_Ok. exists tt, st2.
      split; [done|]. apply bind_Ok. by exists tt, st3.
  - intros fuel e. rewrite alloc_frame_phases.
    unfold mbind at 1, M_bind at 1.
    destruct (prepare arch prog interference e) as [[[] st0]|err|] eqn:Hprep.
    + unfold mbind at 1, M_bind at 1.
      destruct (main_loop arch prog fuel st0) as [[[] st1]|err|] eqn:Hmain.
      * split; [by intros ?%finish_no_spill_error|].
        intros (st0' & k & st2 & [= <-] & H). exfalso.
        assert (main_loop arch prog fuel st0 = Raise NotImplementedError)
          as Hr by (apply Hraise; eauto).
        congruence.
      * split.
        -- intros [= ->]. apply Hraise in Hmain as (k & st1 & H).
           by exists st0, k, st1.
        -- intros (st0' & k & st2 & [= <-] & H). f_equal.
           assert (main_loop arch prog fuel st0 = Raise NotImplementedError)
             as Hr by (apply Hraise; eauto).
           congruence.
      * split; [done|].
        intros (st0' & k & st2 & [= <-] & H). exfalso.
        assert (main_loop arch prog fuel st0 = Raise NotImplementedError)
          as Hr by (apply Hraise; eauto).
        congruence.
    + split.
      * intros [= ->].
        by destruct (wp_Raise _ _ _ (prepare_wp arch prog interference e)).
      * by intros (st0' & k & st2 & [=] & H).
    + split; [done|]. by intros (st0' & k & st2 & [=] & H).
Qed.

End priority.

(** *** The theorems on the example frames *)

Section examples.
Import Examples.

(** Decides a closed proposition by evaluation. *)
Ltac by_compute := apply (bool_decide_unpack _); vm_compute; exact I.

Lemma move_sets_partition_witness :
  (prepare arch3 prog_mov (λ _, graph_mov) ;; main_loop arch3 prog_mov 10)
    frame_mov = Ok (tt, frame_mov_looped) ∧
  pairwise_disjoint (move_sets frame_mov_looped) ∧
  ∀ m, m ∈ instructions frame_mov → ismove prog_mov m = true →
       in_exactly_one m frame_mov_looped.
Proof.
  assert ((prepare arch3 prog_mov (λ _, graph_mov) ;; main_loop arch3 prog_mov 10)
            frame_mov = Ok (tt, frame_mov_looped)) as Hrun.
  { vm_compute. reflexivity. }
  split; [exact Hrun|].
  apply (move_sets_partition arch3 prog_mov (λ _, graph_mov) frame_mov
           frame_mov_looped).
  by exists 10.
Defined.

Lemma main_loop_priority_witness :
  select_step frame_mov_looped = Break ∧
  simplifyWorklist frame_mov_looped = [] ∧
  worklistMoves frame_mov_looped = ∅ ∧
  freeze_worklist frame_mov_looped = [] ∧
  spillWorklist frame_mov_looped = [].
Proof.
  split; [by vm_compute|].
  destruct (main_loop_priority arch3 prog_mov (λ _, graph_mov))
    as (_ & _ & _ & _ & Hend & _).
  apply (Hend 10 (match prepare arch3 prog_mov (λ _, graph_mov) frame_mov with
                  | Ok (_, st) => st | _ => frame_mov end)).
  vm_compute. reflexivity.
Defined.

Lemma is_colorable_pq_witness :
  K (self arch3) !! reg_class (node_of graph_clash 1) = Some 3 ∧
  (∀ m, m ∈ adjecent graph_clash 1 →
     ∃ R, cls_regs (self arch3) !! reg_class (node_of graph_clash m) = Some R ∧
          R ≠ ∅) ∧
  (is_colorable arch3 graph_clash 1 = Ok true ↔
   is_colored (node_of graph_clash 1) = true ∨ pq_sum arch3 graph_clash 1 < 3).
Proof.
  assert (K (self arch3) !! reg_class (node_of graph_clash 1) = Some 3) as HK.
  { vm_compute. reflexivity. }
  assert (∀ m, m ∈ adjecent graph_clash 1 →
     ∃ R, cls_regs (self arch3) !! reg_class (node_of graph_clash m) = Some R ∧
          R ≠ ∅) as Hadj.
  { intros m Hm.
    assert (adjecent graph_clash 1 = {[2]}) as Heq by (vm_compute; reflexivity).
    rewrite Heq in Hm. apply elem_of_singleton in Hm as ->.
    exists (list_to_set [100; 101; 102]). split; [vm_compute; reflexivity|].
    intros Hempty. assert (100 ∈ (∅ : gset nat)) as Hin.
    { rewrite <-Hempty. apply elem_of_list_to_set. left. }
    by apply not_elem_of_empty in Hin. }
  split; [exact HK|]. split; [exact Hadj|].
  exact (proj1 (proj2 (is_colorable_pq arch3 graph_clash 1)) 3 HK Hadj).
Defined.

(** C5, counterexample: in [state_clash] the only register of the class of
    node 1 is taken by its neighbour; [assign_colors] fails with an
    assertion error, not with the error of the unimplemented spill. *)
Lemma assign_colors_raises_assertion :
  select_stack state_clash = [1] ∧
  cls_regs (self arch1) !! reg_class (node_of (ig state_clash) 1)
  = Some {[100]} ∧
  ({[100]} : gset register) ∖ takenregs arch1 (unmask_node (ig state_clash) 1) 1
  = ∅ ∧
  assign_colors arch1 state_clash = Raise AssertionError ∧
  assign_colors arch1 state_clash ≠ Raise NotImplementedError.
Proof.
  split; [done|]. split; [vm_compute; reflexivity|].
  split; [vm_compute; reflexivity|].
  assert (assign_colors arch1 state_clash = Raise AssertionError) as ->.
  { vm_compute. reflexivity. }
  done.
Defined.

Lemma assign_colors_lifo_witness :
  select_stack state_clash = [] ++ [1] ∧
  cls_regs (self arch3) !! reg_class (node_of (unmask_node (ig state_clash) 1) 1)
  = Some (list_to_set [100; 101; 102]) ∧
  ∃ reg,
    reg ∈ (list_to_set [100; 101; 102] : gset register)
          ∖ takenregs arch3 (unmask_node (ig state_clash) 1) 1 ∧
    assign_color arch3 state_clash
    = Ok (tt, set_ig (λ g, set_node g 1 (upd_color (λ _, Some reg)))
                (set_ig (λ g, unmask_node g 1)
                   (set_select_stack (λ _, []) state_clash))).
Proof.
  assert (cls_regs (self arch3)
            !! reg_class (node_of (unmask_node (ig state_clash) 1) 1)
          = Some (list_to_set [100; 101; 102])) as HR.
  { vm_compute. reflexivity. }
  split; [done|]. split; [exact HR|].
  destruct (assign_colors_lifo arch3 state_clash [] 1 _ eq_refl HR)
    as (_ & _ & Hpick & _).
  apply Hpick. intros Hempty.
  assert (101 ∈ (∅ : gset nat)) as Hin; [|by apply not_elem_of_empty in Hin].
  rewrite <-Hempty. vm_compute. reflexivity.
Defined.

Lemma coalesc_takes_sub st :
  worklistMoves st = {[0]} →
  temp_map (ig st) !! 5 = Some 11 → temp_map (ig st) !! 100 = Some 10 →
  precolored st = {[10]} →
  coalesc_takes prog_sub st 0 10 11.
Proof.
  intros HW H5 H100 Hpre. exists ∅, 5, 100, 11, 10.
  split; [rewrite HW; vm_compute; reflexivity|].
  split; [done|]. split; [done|].
  unfold get_node. rewrite H5, H100, Hpre. split; [done|]. split; [done|].
  rewrite bool_decide_eq_true_2; [done|]. by apply elem_of_singleton.
Qed.

(** C3, counterexample: in [state_sub] the class of [v] (class 0) is not a
    subclass of the class of [u] (class 1), and [coalesc] combines the two
    nodes and puts the move into [coalescedMoves]; in [state_super] the
    class of [v] (class 1) is a subclass of the class of [u] (class 0) and
    [v] has no neighbour, and [coalesc] puts the move into [activeMoves]
    and combines nothing. *)
Lemma coalesc_class_order :
  (coalesc_takes prog_sub state_sub 0 10 11 ∧
   (11 ∉ precolored state_sub) ∧ has_edge (ig state_sub) 10 11 = false ∧
   is_colored (node_of (ig state_sub) 10) = true ∧
   issubclass arch_sub (reg_class (node_of (ig state_sub) 11))
     (reg_class (node_of (ig state_sub) 10)) = false ∧
   ∃ st', coalesc arch_sub prog_sub state_sub = Ok (tt, st') ∧
          coalescedMoves st' = {[0]} ∧ nodes (ig st') = {[10]} ∧
          get_node (ig st') 5 = Ok 10) ∧
  (coalesc_takes prog_sub state_super 0 10 11 ∧
   (11 ∉ precolored state_super) ∧ has_edge (ig state_super) 10 11 = false ∧
   is_colored (node_of (ig state_super) 10) = true ∧
   issubclass arch_sub (reg_class (node_of (ig state_super) 11))
     (reg_class (node_of (ig state_super) 10)) = true ∧
   adjecent (ig state_super) 11 = ∅ ∧
   ∃ st', coalesc arch_sub prog_sub state_super = Ok (tt, st') ∧
          coalescedMoves st' = ∅ ∧ activeMoves st' = {[0]} ∧
          ig st' = ig state_super).
Proof.
  split.
  - split; [by apply coalesc_takes_sub|].
    split; [by_compute|].
    split; [vm_compute; reflexivity|]. split; [done|]. split; [done|].
    eexists. split; [vm_compute; reflexivity|].
    split; [vm_compute; reflexivity|]. split; vm_compute; reflexivity.
  - split; [by apply coalesc_takes_sub|].
    split; [by_compute|].
    split; [vm_compute; reflexivity|]. split; [done|]. split; [done|].
    split; [vm_compute; reflexivity|].
    eexists. split; [vm_compute; reflexivity|].
    split; [vm_compute; reflexivity|]. split; vm_compute; reflexivity.
Defined.

Lemma coalesc_george_witness :
  coalesc_takes prog_sub state_sub 0 10 11 ∧
  10 ≠ 11 ∧ (11 ∉ precolored state_sub) ∧
  has_edge (ig state_sub) 10 11 = false ∧
  is_colored (node_of (ig state_sub) 10) = true ∧
  coalesc arch_sub prog_sub state_sub
  = (add_coalescedMoves 0 ;; combine arch_sub 10 11 ;; add_worklist arch_sub 10)
      (set_worklistMoves (λ s, s ∖ {[0]}) state_sub).
Proof.
  assert (coalesc_takes prog_sub state_sub 0 10 11) as Htakes
    by by apply coalesc_takes_sub.
  assert (11 ∉ precolored state_sub) as Hv by by_compute.
  assert (has_edge (ig state_sub) 10 11 = false) as Hedge
    by (vm_compute; reflexivity).
  split; [exact Htakes|]. split; [done|]. split; [exact Hv|].
  split; [exact Hedge|]. split; [done|].
  apply (coalesc_george arch_sub prog_sub state_sub 0 10 11 Htakes
           ltac:(done) Hv Hedge eq_refl).
  split; [done|]. intros t Ht.
  assert (adjecent (ig state_sub) 11 = ∅) as Heq by (vm_compute; reflexivity).
  rewrite Heq in Ht. by apply not_elem_of_empty in Ht.
Defined.

Lemma coalesced_moves_removed_colors_applied_witness :
  NoDup (instructions frame_mov) ∧
  alloc_frame arch3 prog_mov (λ _, graph_mov) 10 frame_mov
  = Ok (tt, frame_mov_done) ∧
  instructions frame_mov_done
  = filter (λ i, i ∉ coalescedMoves frame_mov_done) (instructions frame_mov) ∧
  nodes_colored state_colored ∧
  ∃ st', apply_colors state_colored = Ok (tt, st') ∧
         ∀ r z, reg_color state_colored !! r = Some z →
                reg_color st' !! r = Some z.
Proof.
  assert (NoDup (instructions frame_mov)) as Hnd.
  { by_compute. }
  assert (alloc_frame arch3 prog_mov (λ _, graph_mov) 10 frame_mov
          = Ok (tt, frame_mov_done)) as Hrun by (vm_compute; reflexivity).
  assert (nodes_colored state_colored) as Hcol.
  { intros n Hn. change (n ∈ ({[1]} : gset nat)) in Hn.
    apply elem_of_singleton in Hn as ->. by exists 101, 1%Z. }
  destruct (coalesced_moves_removed_colors_applied arch3 prog_mov
              (λ _, graph_mov)) as (Hins & Happly & _).
  split; [exact Hnd|]. split; [exact Hrun|].
  split; [exact (proj1 (Hins 10 frame_mov frame_mov_done Hnd Hrun))|].
  split; [exact Hcol|].
  eexists. split; [vm_compute; reflexivity|].
  refine (proj2 (Happly state_colored _ Hcol _)). vm_compute. reflexivity.
Defined.

End examples.
End RegAllocTheory.
